(** * Navigable expressions of cel-go's [common/ast] package

    A shallow embedding of [vendor/github.com/google/cel-go/common/ast/expr.go]:
    the kind classifier [kindOf], the navigable node [navigableExprImpl] with
    its child factories, the kind-specific views, and the matcher engine
    ([MatchDescendants], [MatchSubset], [matchIsConstantValue]).

    Go pointers that may be nil are [option]s; the protobuf getters of the
    raw expression are nil-safe, as the generated Go code is.  A pointer to a
    freshly built [navigableExprImpl] is modelled by the node value itself
    (the source never compares node pointers); a second model, with a store
    of node objects and handles into it, makes the allocation explicit. *)

From Stdlib Require Import ZArith Lia List.
From stdpp Require Import gmap strings list sorting.

Set Default Proof Using "Type".
#[local] Set Warnings "-register-all".

Section Navigable.

(** The collaborators the source imports and does not define:
    [exprpb.Constant] (the payload of a literal), [ref.Val] (a runtime
    value), Go's [error], [*types.Type] with the sentinel [types.DynType]. *)
Context {Constant Val error Ty : Type}.
Variable DynType : Ty.

(** ** The raw expression: [exprpb.Expr] *)

(** The messages are parametric in the type [E] of expressions, so that
    [Expr] below is one nested inductive type. *)
Record Expr_Ident := { Ident_Name : string }.

Record Expr_Select (E : Type) := {
  Select_Operand : option E;
  Select_Field : string;
  Select_TestOnly : bool }.

Record Expr_Call (E : Type) := {
  Call_Target : option E;
  Call_Function : string;
  Call_Args : list (option E) }.

Record Expr_CreateList (E : Type) := {
  CreateList_Elements : list (option E);
  CreateList_OptionalIndices : list Z }.

Inductive isEntry_KeyKind (E : Type) :=
| Entry_FieldKey (k : string)
| Entry_MapKey (k : option E).

Record Expr_CreateStruct_Entry (E : Type) := {
  Entry_Id : Z;
  Entry_KeyKind : option (isEntry_KeyKind E);
  Entry_Value : option E;
  Entry_OptionalEntry : bool }.

Record Expr_CreateStruct (E : Type) := {
  CreateStruct_MessageName : string;
  CreateStruct_Entries : list (option (Expr_CreateStruct_Entry E)) }.

Record Expr_Comprehension (E : Type) := {
  Comprehension_IterVar : string;
  Comprehension_IterRange : option E;
  Comprehension_AccuVar : string;
  Comprehension_AccuInit : option E;
  Comprehension_LoopCondition : option E;
  Comprehension_LoopStep : option E;
  Comprehension_Result : option E }.

(** The oneof [Expr.expr_kind]: one wrapper per variant, each holding a
    pointer to its message. *)
Inductive isExpr_ExprKind (E : Type) :=
| Expr_ConstExpr (c : option Constant)
| Expr_IdentExpr (i : option Expr_Ident)
| Expr_SelectExpr (s : option (Expr_Select E))
| Expr_CallExpr (c : option (Expr_Call E))
| Expr_ListExpr (l : option (Expr_CreateList E))
| Expr_StructExpr (s : option (Expr_CreateStruct E))
| Expr_ComprehensionExpr (c : option (Expr_Comprehension E)).

Inductive Expr : Type := Build_Expr {
  Expr_Id : Z;
  Expr_ExprKind : option (isExpr_ExprKind Expr) }.

#[global] Arguments Select_Operand {E}.
#[global] Arguments Select_Field {E}.
#[global] Arguments Select_TestOnly {E}.
#[global] Arguments Call_Target {E}.
#[global] Arguments Call_Function {E}.
#[global] Arguments Call_Args {E}.
#[global] Arguments CreateList_Elements {E}.
#[global] Arguments CreateList_OptionalIndices {E}.
#[global] Arguments Entry_FieldKey {E}.
#[global] Arguments Entry_MapKey {E}.
#[global] Arguments Entry_Id {E}.
#[global] Arguments Entry_KeyKind {E}.
#[global] Arguments Entry_Value {E}.
#[global] Arguments Entry_OptionalEntry {E}.
#[global] Arguments CreateStruct_MessageName {E}.
#[global] Arguments CreateStruct_Entries {E}.
#[global] Arguments Comprehension_IterVar {E}.
#[global] Arguments Comprehension_IterRange {E}.
#[global] Arguments Comprehension_AccuVar {E}.
#[global] Arguments Comprehension_AccuInit {E}.
#[global] Arguments Comprehension_LoopCondition {E}.
#[global] Arguments Comprehension_LoopStep {E}.
#[global] Arguments Comprehension_Result {E}.
#[global] Arguments Expr_ConstExpr {E}.
#[global] Arguments Expr_IdentExpr {E}.
#[global] Arguments Expr_SelectExpr {E}.
#[global] Arguments Expr_CallExpr {E}.
#[global] Arguments Expr_ListExpr {E}.
#[global] Arguments Expr_StructExpr {E}.
#[global] Arguments Expr_ComprehensionExpr {E}.

(** *** The generated getters: every one accepts a nil receiver and then
    returns the zero value of its result type. *)

Definition GetId (e : option Expr) : Z :=
  match e with Some x => Expr_Id x | None => 0%Z end.

Definition GetExprKind (e : option Expr) : option (isExpr_ExprKind Expr) :=
  match e with Some x => Expr_ExprKind x | None => None end.

Definition GetConstExpr (e : option Expr) : option Constant :=
  match GetExprKind e with Some (Expr_ConstExpr c) => c | _ => None end.

Definition GetIdentExpr (e : option Expr) : option Expr_Ident :=
  match GetExprKind e with Some (Expr_IdentExpr i) => i | _ => None end.

Definition GetSelectExpr (e : option Expr) : option (Expr_Select Expr) :=
  match GetExprKind e with Some (Expr_SelectExpr s) => s | _ => None end.

Definition GetCallExpr (e : option Expr) : option (Expr_Call Expr) :=
  match GetExprKind e with Some (Expr_CallExpr c) => c | _ => None end.

Definition GetListExpr (e : option Expr) : option (Expr_CreateList Expr) :=
  match GetExprKind e with Some (Expr_ListExpr l) => l | _ => None end.

Definition GetStructExpr (e : option Expr) : option (Expr_CreateStruct Expr) :=
  match GetExprKind e with Some (Expr_StructExpr s) => s | _ => None end.

Definition GetComprehensionExpr (e : option Expr)
  : option (Expr_Comprehension Expr) :=
  match GetExprKind e with Some (Expr_ComprehensionExpr c) => c | _ => None end.

Definition GetName (i : option Expr_Ident) : string :=
  match i with Some x => Ident_Name x | None => EmptyString end.

Definition GetOperand (s : option (Expr_Select Expr)) : option Expr :=
  match s with Some x => Select_Operand x | None => None end.

Definition GetField (s : option (Expr_Select Expr)) : string :=
  match s with Some x => Select_Field x | None => EmptyString end.

Definition GetTestOnly (s : option (Expr_Select Expr)) : bool :=
  match s with Some x => Select_TestOnly x | None => false end.

Definition GetTarget (c : option (Expr_Call Expr)) : option Expr :=
  match c with Some x => Call_Target x | None => None end.

Definition GetFunction (c : option (Expr_Call Expr)) : string :=
  match c with Some x => Call_Function x | None => EmptyString end.

Definition GetArgs (c : option (Expr_Call Expr)) : list (option Expr) :=
  match c with Some x => Call_Args x | None => [] end.

Definition GetElements (l : option (Expr_CreateList Expr))
  : list (option Expr) :=
  match l with Some x => CreateList_Elements x | None => [] end.

Definition GetOptionalIndices (l : option (Expr_CreateList Expr)) : list Z :=
  match l with Some x => CreateList_OptionalIndices x | None => [] end.

Definition GetMessageName (s : option (Expr_CreateStruct Expr)) : string :=
  match s with Some x => CreateStruct_MessageName x | None => EmptyString end.

Definition GetEntries (s : option (Expr_CreateStruct Expr))
  : list (option (Expr_CreateStruct_Entry Expr)) :=
  match s with Some x => CreateStruct_Entries x | None => [] end.

Definition GetKeyKind (e : option (Expr_CreateStruct_Entry Expr))
  : option (isEntry_KeyKind Expr) :=
  match e with Some x => Entry_KeyKind x | None => None end.

Definition GetFieldKey (e : option (Expr_CreateStruct_Entry Expr)) : string :=
  match GetKeyKind e with Some (Entry_FieldKey k) => k | _ => EmptyString end.

Definition GetMapKey (e : option (Expr_CreateStruct_Entry Expr))
  : option Expr :=
  match GetKeyKind e with Some (Entry_MapKey k) => k | _ => None end.

Definition GetValue (e : option (Expr_CreateStruct_Entry Expr))
  : option Expr :=
  match e with Some x => Entry_Value x | None => None end.

Definition GetOptionalEntry (e : option (Expr_CreateStruct_Entry Expr))
  : bool :=
  match e with Some x => Entry_OptionalEntry x | None => false end.

Definition GetIterVar (c : option (Expr_Comprehension Expr)) : string :=
  match c with Some x => Comprehension_IterVar x | None => EmptyString end.

Definition GetIterRange (c : option (Expr_Comprehension Expr)) : option Expr :=
  match c with Some x => Comprehension_IterRange x | None => None end.

Definition GetAccuVar (c : option (Expr_Comprehension Expr)) : string :=
  match c with Some x => Comprehension_AccuVar x | None => EmptyString end.

Definition GetAccuInit (c : option (Expr_Comprehension Expr)) : option Expr :=
  match c with Some x => Comprehension_AccuInit x | None => None end.

Definition GetLoopCondition (c : option (Expr_Comprehension Expr))
  : option Expr :=
  match c with Some x => Comprehension_LoopCondition x | None => None end.

Definition GetLoopStep (c : option (Expr_Comprehension Expr)) : option Expr :=
  match c with Some x => Comprehension_LoopStep x | None => None end.

Definition GetResult (c : option (Expr_Comprehension Expr)) : option Expr :=
  match c with Some x => Comprehension_Result x | None => None end.

(** ** [ExprKind] and the navigable node *)

Inductive ExprKind :=
| UnspecifiedKind
| LiteralKind
| IdentKind
| SelectKind
| CallKind
| ListKind
| MapKind
| StructKind
| ComprehensionKind.

#[global] Instance ExprKind_eq_dec : EqDecision ExprKind.
Proof. solve_decision. Defined.

(** [childFactory] is a function type in the source; the seven functions
    that inhabit it are named here and applied by [Children]. *)
Inductive childFactory :=
| noopFactory
| selectFactory
| callArgFactory
| listElemFactory
| structEntryFactory
| mapEntryFactory
| comprehensionFactory.

Inductive navigableExprImpl : Type := Build_navigableExprImpl {
  parent : option navigableExprImpl;
  kind : ExprKind;
  expr : option Expr;
  typeMap : gmap Z Ty;
  createChildren : childFactory }.

Definition kindOf (e : option Expr) : ExprKind * childFactory :=
  match GetExprKind e with
  | Some (Expr_ConstExpr _) => (LiteralKind, noopFactory)
  | Some (Expr_IdentExpr _) => (IdentKind, noopFactory)
  | Some (Expr_SelectExpr _) => (SelectKind, selectFactory)
  | Some (Expr_CallExpr _) => (CallKind, callArgFactory)
  | Some (Expr_ListExpr _) => (ListKind, listElemFactory)
  | Some (Expr_StructExpr _) =>
      if negb (String.eqb (GetMessageName (GetStructExpr e)) EmptyString)
      then (StructKind, structEntryFactory)
      else (MapKind, mapEntryFactory)
  | Some (Expr_ComprehensionExpr _) => (ComprehensionKind, comprehensionFactory)
  | None => (UnspecifiedKind, noopFactory)
  end.

Definition newNavigableExpr (p : option navigableExprImpl) (e : option Expr)
    (tm : gmap Z Ty) : navigableExprImpl :=
  let '(k, factory) := kindOf e in
  {| parent := p; kind := k; expr := e; typeMap := tm;
     createChildren := factory |}.

(** The two fields of [CheckedAST] the source reads. *)
Record CheckedAST := {
  CheckedAST_Expr : option Expr;
  CheckedAST_TypeMap : gmap Z Ty }.

Definition NavigateCheckedAST (ast : CheckedAST) : navigableExprImpl :=
  newNavigableExpr None (CheckedAST_Expr ast) (CheckedAST_TypeMap ast).

Definition ToExpr (nav : navigableExprImpl) : option Expr := expr nav.

Definition ID (nav : navigableExprImpl) : Z := GetId (ToExpr nav).

Definition Kind (nav : navigableExprImpl) : ExprKind := kind nav.

Definition Type_ (nav : navigableExprImpl) : Ty :=
  match typeMap nav !! ID nav with
  | Some t => t
  | None => DynType
  end.

Definition Parent (nav : navigableExprImpl) : option navigableExprImpl * bool :=
  match parent nav with
  | Some p => (Some p, true)
  | None => (None, false)
  end.

Definition createChild (nav : navigableExprImpl) (e : option Expr)
  : navigableExprImpl :=
  newNavigableExpr (Some nav) e (typeMap nav).

(** A node is [constructed] when it is the result of [newNavigableExpr],
    the only function of the source that builds nodes. *)
Definition constructed (nav : navigableExprImpl) : Prop :=
  nav = newNavigableExpr (parent nav) (expr nav) (typeMap nav).

(** [Children] calls the stored factory on the node; each arm is the body
    of the source function of that name. *)
Definition Children (nav : navigableExprImpl) : list navigableExprImpl :=
  match createChildren nav with
  | noopFactory => []
  | selectFactory =>
      [createChild nav (GetOperand (GetSelectExpr (ToExpr nav)))]
  | callArgFactory =>
      let call := GetCallExpr (ToExpr nav) in
      match GetTarget call with
      | Some t => [createChild nav (Some t)]
      | None => []
      end ++ map (createChild nav) (GetArgs call)
  | listElemFactory =>
      map (createChild nav) (GetElements (GetListExpr (ToExpr nav)))
  | structEntryFactory =>
      map (fun e => createChild nav (GetValue e))
          (GetEntries (GetStructExpr (ToExpr nav)))
  | mapEntryFactory =>
      flat_map (fun e => [createChild nav (GetMapKey e);
                          createChild nav (GetValue e)])
               (GetEntries (GetStructExpr (ToExpr nav)))
  | comprehensionFactory =>
      let compre := GetComprehensionExpr (ToExpr nav) in
      [createChild nav (GetIterRange compre);
       createChild nav (GetAccuInit compre);
       createChild nav (GetLoopCondition compre);
       createChild nav (GetLoopStep compre);
       createChild nav (GetResult compre)]
  end.

(** ** The kind-specific views

    Each view embeds the node pointer; [AsCall] and its siblings build the
    wrapper without looking at the kind. *)

Record navigableCallImpl := { callImpl : navigableExprImpl }.
Record navigableComprehensionImpl := { comprehensionImpl : navigableExprImpl }.
Record navigableListImpl := { listImpl : navigableExprImpl }.
Record navigableMapImpl := { mapImpl : navigableExprImpl }.
Record navigableSelectImpl := { selectImpl : navigableExprImpl }.
Record navigableStructImpl := { structImpl : navigableExprImpl }.

Record navigableEntryImpl := {
  entry_key : navigableExprImpl;
  entry_val : navigableExprImpl;
  entry_isOpt : bool }.

Record navigableFieldImpl := {
  field_name : string;
  field_val : navigableExprImpl;
  field_isOpt : bool }.

Definition AsCall (nav : navigableExprImpl) : navigableCallImpl :=
  {| callImpl := nav |}.

Definition AsComprehension (nav : navigableExprImpl)
  : navigableComprehensionImpl :=
  {| comprehensionImpl := nav |}.

Definition AsIdent (nav : navigableExprImpl) : string :=
  GetName (GetIdentExpr (ToExpr nav)).

Definition AsList (nav : navigableExprImpl) : navigableListImpl :=
  {| listImpl := nav |}.

Definition AsMap (nav : navigableExprImpl) : navigableMapImpl :=
  {| mapImpl := nav |}.

Definition AsSelect (nav : navigableExprImpl) : navigableSelectImpl :=
  {| selectImpl := nav |}.

Definition AsStruct (nav : navigableExprImpl) : navigableStructImpl :=
  {| structImpl := nav |}.

Definition navigableCallImpl_FunctionName (call : navigableCallImpl) : string :=
  GetFunction (GetCallExpr (ToExpr (callImpl call))).

(** [Target] returns a nil interface when the call has no target. *)
Definition navigableCallImpl_Target (call : navigableCallImpl)
  : option navigableExprImpl :=
  match GetTarget (GetCallExpr (ToExpr (callImpl call))) with
  | Some t => Some (createChild (callImpl call) (Some t))
  | None => None
  end.

Definition navigableCallImpl_Args (call : navigableCallImpl)
  : list navigableExprImpl :=
  map (createChild (callImpl call))
      (GetArgs (GetCallExpr (ToExpr (callImpl call)))).

Definition navigableCallImpl_ReturnType (call : navigableCallImpl) : Ty :=
  Type_ (callImpl call).

Definition navigableComprehensionImpl_IterRange
    (comp : navigableComprehensionImpl) : navigableExprImpl :=
  createChild (comprehensionImpl comp)
    (GetIterRange (GetComprehensionExpr (ToExpr (comprehensionImpl comp)))).

Definition navigableComprehensionImpl_IterVar
    (comp : navigableComprehensionImpl) : string :=
  GetIterVar (GetComprehensionExpr (ToExpr (comprehensionImpl comp))).

Definition navigableComprehensionImpl_AccuVar
    (comp : navigableComprehensionImpl) : string :=
  GetAccuVar (GetComprehensionExpr (ToExpr (comprehensionImpl comp))).

Definition navigableComprehensionImpl_AccuInit
    (comp : navigableComprehensionImpl) : navigableExprImpl :=
  createChild (comprehensionImpl comp)
    (GetAccuInit (GetComprehensionExpr (ToExpr (comprehensionImpl comp)))).

Definition navigableComprehensionImpl_LoopCondition
    (comp : navigableComprehensionImpl) : navigableExprImpl :=
  createChild (comprehensionImpl comp)
    (GetLoopCondition (GetComprehensionExpr (ToExpr (comprehensionImpl comp)))).

Definition navigableComprehensionImpl_LoopStep
    (comp : navigableComprehensionImpl) : navigableExprImpl :=
  createChild (comprehensionImpl comp)
    (GetLoopStep (GetComprehensionExpr (ToExpr (comprehensionImpl comp)))).

Definition navigableComprehensionImpl_Result
    (comp : navigableComprehensionImpl) : navigableExprImpl :=
  createChild (comprehensionImpl comp)
    (GetResult (GetComprehensionExpr (ToExpr (comprehensionImpl comp)))).

Definition navigableListImpl_Elements (l : navigableListImpl)
  : list navigableExprImpl :=
  Children (listImpl l).

Definition navigableListImpl_OptionalIndices (l : navigableListImpl) : list Z :=
  GetOptionalIndices (GetListExpr (ToExpr (listImpl l))).

Definition navigableListImpl_Size (l : navigableListImpl) : nat :=
  length (GetElements (GetListExpr (ToExpr (listImpl l)))).

Definition navigableMapImpl_Entries (m : navigableMapImpl)
  : list navigableEntryImpl :=
  let mapExpr := GetStructExpr (ToExpr (mapImpl m)) in
  map (fun e => {| entry_key := createChild (mapImpl m) (GetMapKey e);
                   entry_val := createChild (mapImpl m) (GetValue e);
                   entry_isOpt := GetOptionalEntry e |})
      (GetEntries mapExpr).

Definition navigableMapImpl_Size (m : navigableMapImpl) : nat :=
  length (GetEntries (GetStructExpr (ToExpr (mapImpl m)))).

Definition navigableEntryImpl_Key (e : navigableEntryImpl) := entry_key e.
Definition navigableEntryImpl_Value (e : navigableEntryImpl) := entry_val e.
Definition navigableEntryImpl_IsOptional (e : navigableEntryImpl) :=
  entry_isOpt e.

Definition navigableSelectImpl_FieldName (sel : navigableSelectImpl) : string :=
  GetField (GetSelectExpr (ToExpr (selectImpl sel))).

Definition navigableSelectImpl_IsTestOnly (sel : navigableSelectImpl) : bool :=
  GetTestOnly (GetSelectExpr (ToExpr (selectImpl sel))).

Definition navigableSelectImpl_Operand (sel : navigableSelectImpl)
  : navigableExprImpl :=
  createChild (selectImpl sel)
    (GetOperand (GetSelectExpr (ToExpr (selectImpl sel)))).

Definition navigableStructImpl_TypeName (s : navigableStructImpl) : string :=
  GetMessageName (GetStructExpr (ToExpr (structImpl s))).

Definition navigableStructImpl_Fields (s : navigableStructImpl)
  : list navigableFieldImpl :=
  let fieldInits := GetEntries (GetStructExpr (ToExpr (structImpl s))) in
  map (fun f => {| field_name := GetFieldKey f;
                   field_val := createChild (structImpl s) (GetValue f);
                   field_isOpt := GetOptionalEntry f |})
      fieldInits.

Definition navigableFieldImpl_FieldName (f : navigableFieldImpl) := field_name f.
Definition navigableFieldImpl_Value (f : navigableFieldImpl) := field_val f.
Definition navigableFieldImpl_IsOptional (f : navigableFieldImpl) :=
  field_isOpt f.

(** ** [AsLiteral]: the one accessor that calls out and may panic

    The call of the conversion function is an explicit node of the program,
    so that whether [AsLiteral] calls it at all is visible; [run] supplies
    the function. *)

Inductive prog (A : Type) :=
| Ret (a : A)
| CallConstantToVal (c : option Constant)
                    (k : option Val * option error -> prog A)
| Panic (err : error).

#[global] Arguments Ret {A}.
#[global] Arguments CallConstantToVal {A}.
#[global] Arguments Panic {A}.

Inductive outcome (A : Type) :=
| Returned (a : A)
| Panicked (err : error).

#[global] Arguments Returned {A}.
#[global] Arguments Panicked {A}.

Fixpoint run {A} (ConstantToVal : option Constant -> option Val * option error)
    (p : prog A) : outcome A :=
  match p with
  | Ret a => Returned a
  | CallConstantToVal c k => run ConstantToVal (k (ConstantToVal c))
  | Panic err => Panicked err
  end.

(** The payloads the conversion function is called on, in call order. *)
Fixpoint conversions {A}
    (ConstantToVal : option Constant -> option Val * option error)
    (p : prog A) : list (option Constant) :=
  match p with
  | Ret _ => []
  | CallConstantToVal c k => c :: conversions ConstantToVal (k (ConstantToVal c))
  | Panic _ => []
  end.

Definition AsLiteral (nav : navigableExprImpl) : prog (option Val) :=
  if decide (Kind nav ≠ LiteralKind) then Ret None
  else
    CallConstantToVal (GetConstExpr (ToExpr nav))
      (fun '(val, err) =>
         match err with
         | Some e => Panic e
         | None => Ret val
         end).

(** ** The matcher engine *)

Definition ExprMatcher := navigableExprImpl -> bool.

Definition KindMatcher (k : ExprKind) : ExprMatcher :=
  fun e => bool_decide (Kind e = k).

Definition FunctionMatcher (funcName : string) : ExprMatcher :=
  fun e =>
    if decide (Kind e ≠ CallKind) then false
    else String.eqb (navigableCallImpl_FunctionName (AsCall e)) funcName.

Definition AllMatcher : ExprMatcher := fun _ => true.

(** The loop of [matchListInternal] runs once per visited node; [fuel]
    bounds the number of iterations and [None] means it ran out. *)
Fixpoint matchListInternal_fuel (fuel : nat) (visit : list navigableExprImpl)
    (matcher : ExprMatcher) (visitDescendants : bool)
    (matched : list navigableExprImpl) : option (list navigableExprImpl) :=
  match fuel with
  | 0 => None
  | S fuel' =>
      match visit with
      | [] => Some matched
      | e :: rest =>
          let matched' := if matcher e then matched ++ [e] else matched in
          let visit' := if visitDescendants then rest ++ Children e else rest in
          matchListInternal_fuel fuel' visit' matcher visitDescendants matched'
      end
  end.

(** The [for _, child := range e.Children()] loop of
    [matchIsConstantValue], with its early [return false]; [rec] is the
    recursive call on a child. *)
Fixpoint rangeChildren (rec : navigableExprImpl -> option bool)
    (cs : list navigableExprImpl) : option bool :=
  match cs with
  | [] => Some true
  | child :: cs' =>
      match rec child with
      | None => None
      | Some false => Some false
      | Some true => rangeChildren rec cs'
      end
  end.

(** [matchIsConstantValue] recurses through [Children]; [fuel] bounds the
    depth of the recursion and [None] means it ran out. *)
Fixpoint matchIsConstantValue_fuel (fuel : nat) (e : navigableExprImpl)
  : option bool :=
  match fuel with
  | 0 => None
  | S fuel' =>
      if decide (Kind e = LiteralKind) then Some true
      else if decide (Kind e = StructKind ∨ Kind e = MapKind ∨ Kind e = ListKind)
      then rangeChildren (matchIsConstantValue_fuel fuel') (Children e)
      else Some false
  end.

(** *** Enough fuel: the number of nodes of a navigable tree *)

Definition osize_with (esize : Expr -> nat) (x : option Expr) : nat :=
  match x with Some y => esize y | None => 1 end.

(** [esize e] counts the nodes of the navigable tree that a node built by
    [newNavigableExpr] on [e] spans: itself and what its factory yields. *)
Fixpoint esize (e : Expr) : nat :=
  S (match Expr_ExprKind e with
     | Some (Expr_SelectExpr (Some s)) => osize_with esize (Select_Operand s)
     | Some (Expr_SelectExpr None) => 1
     | Some (Expr_CallExpr (Some c)) =>
         match Call_Target c with Some t => esize t | None => 0 end
         + list_sum (map (osize_with esize) (Call_Args c))
     | Some (Expr_ListExpr (Some l)) =>
         list_sum (map (osize_with esize) (CreateList_Elements l))
     | Some (Expr_StructExpr (Some s)) =>
         if negb (String.eqb (CreateStruct_MessageName s) EmptyString)
         then list_sum
                (map (fun en => match en with
                                | Some en' => osize_with esize (Entry_Value en')
                                | None => 1
                                end)
                     (CreateStruct_Entries s))
         else list_sum
                (map (fun en => match en with
                                | Some en' =>
                                    match Entry_KeyKind en' with
                                    | Some (Entry_MapKey k) => osize_with esize k
                                    | _ => 1
                                    end
                                    + osize_with esize (Entry_Value en')
                                | None => 2
                                end)
                     (CreateStruct_Entries s))
     | Some (Expr_ComprehensionExpr (Some c)) =>
         osize_with esize (Comprehension_IterRange c)
         + osize_with esize (Comprehension_AccuInit c)
         + osize_with esize (Comprehension_LoopCondition c)
         + osize_with esize (Comprehension_LoopStep c)
         + osize_with esize (Comprehension_Result c)
     | Some (Expr_ComprehensionExpr None) => 5
     | _ => 0
     end).

Definition osize : option Expr -> nat := osize_with esize.

(** The number of nodes below and including [nav], whatever factory it
    holds: its children are built by [newNavigableExpr]. *)
Definition weight (nav : navigableExprImpl) : nat :=
  S (list_sum (map (fun c => osize (expr c)) (Children nav))).

Definition weights (l : list navigableExprImpl) : nat :=
  list_sum (map weight l).

(** What one iteration of the loop adds to [matched], and the queue it
    leaves. *)
Definition step_matched (matcher : ExprMatcher) (e : navigableExprImpl)
  : list navigableExprImpl :=
  if matcher e then [e] else [].

Definition step_visit (visitDescendants : bool) (e : navigableExprImpl)
    (rest : list navigableExprImpl) : list navigableExprImpl :=
  if visitDescendants then rest ++ Children e else rest.

Definition matchListInternal (visit : list navigableExprImpl)
    (matcher : ExprMatcher) (visitDescendants : bool)
  : list navigableExprImpl :=
  default [] (matchListInternal_fuel (S (weights visit)) visit matcher
                                     visitDescendants []).

Definition MatchDescendants (e : navigableExprImpl) (matcher : ExprMatcher)
  : list navigableExprImpl :=
  matchListInternal [e] matcher true.

(** [MatchSubset] walks a copy of the caller's list. *)
Definition MatchSubset (exprs : list navigableExprImpl) (matcher : ExprMatcher)
  : list navigableExprImpl :=
  let visit := exprs in
  matchListInternal visit matcher false.

Definition matchIsConstantValue (e : navigableExprImpl) : bool :=
  default false (matchIsConstantValue_fuel (weight e) e).

Definition ConstantValueMatcher : ExprMatcher := matchIsConstantValue.

(** *** Breadth-first order, as a specification *)

(** The nodes [d] levels below the nodes of [q], parents in the order of
    [q], siblings in the order of [Children]. *)
Fixpoint level (d : nat) (q : list navigableExprImpl)
  : list navigableExprImpl :=
  match d with
  | 0 => q
  | S d' => flat_map Children (level d' q)
  end.

(** Breadth-first order: the first [n] levels, shallowest first. *)
Definition breadthFirst (n : nat) (q : list navigableExprImpl)
  : list navigableExprImpl :=
  flat_map (fun d => level d q) (seq 0 n).

(** A position of the tree below [root] is the list of child indices that
    leads to it; [descend] follows one. *)
Fixpoint descend (root : navigableExprImpl) (path : list nat)
  : option navigableExprImpl :=
  match path with
  | [] => Some root
  | i :: path' =>
      match Children root !! i with
      | Some c => descend c path'
      | None => None
      end
  end.

(** The children of the node at a position, each with its own position. *)
Definition childrenAt (pn : list nat * navigableExprImpl)
  : list (list nat * navigableExprImpl) :=
  imap (fun i c => (pn.1 ++ [i], c)) (Children pn.2).

Fixpoint levelAt (d : nat) (q : list (list nat * navigableExprImpl))
  : list (list nat * navigableExprImpl) :=
  match d with
  | 0 => q
  | S d' => flat_map childrenAt (levelAt d' q)
  end.

(** The positions of the tree below [root] in breadth-first order. *)
Definition breadthFirstAt (n : nat) (root : navigableExprImpl)
  : list (list nat * navigableExprImpl) :=
  flat_map (fun d => levelAt d [([], root)]) (seq 0 n).

(** Breadth-first order on positions: a shorter position comes first,
    and of two positions of one length the one that turns to an earlier
    child at the first index where they differ. *)
Fixpoint lex_lt (p q : list nat) : Prop :=
  match p, q with
  | i :: p', j :: q' => i < j ∨ (i = j ∧ lex_lt p' q')
  | _, _ => False
  end.

Definition shortlex_lt (p q : list nat) : Prop :=
  length p < length q ∨ (length p = length q ∧ lex_lt p q).

(** ** Node handles: the allocation of nodes made explicit

    [newNavigableExpr] returns a pointer to a fresh [navigableExprImpl].
    Here a pointer is a [handle] into a [store] of node objects, a parent
    is held by its handle, and every construction extends the store.  A
    computation is a function of the store that may fail on a handle that
    points nowhere. *)

Abbreviation handle := nat.

Record navigableExprObj := {
  obj_parent : option handle;
  obj_kind : ExprKind;
  obj_expr : option Expr;
  obj_typeMap : gmap Z Ty;
  obj_createChildren : childFactory }.

Abbreviation store := (list navigableExprObj).

Definition M (A : Type) : Type := store -> option (A * store).

Definition ret {A} (a : A) : M A := fun s => Some (a, s).

Definition bind {A B} (m : M A) (k : A -> M B) : M B :=
  fun s => match m s with
           | Some (a, s') => k a s'
           | None => None
           end.

Notation "'do' x <- m 'in' k" := (bind m (fun x => k))
  (at level 10, x name, m at level 100, k at level 200, only parsing).

(** Allocation: the new object goes to the end, its index is its handle. *)
Definition new (o : navigableExprObj) : M handle :=
  fun s => Some (length s, s ++ [o]).

(** Dereference of a handle. *)
Definition deref (h : handle) : M navigableExprObj :=
  fun s => match s !! h with
           | Some o => Some (o, s)
           | None => None
           end.

Fixpoint mapM {A B} (f : A -> M B) (l : list A) : M (list B) :=
  match l with
  | [] => ret []
  | x :: l' => do y <- f x in do ys <- mapM f l' in ret (y :: ys)
  end.

Definition newNavigableExpr_h (p : option handle) (e : option Expr)
    (tm : gmap Z Ty) : M handle :=
  let '(k, factory) := kindOf e in
  new {| obj_parent := p; obj_kind := k; obj_expr := e; obj_typeMap := tm;
         obj_createChildren := factory |}.

Definition createChild_h (nav : handle) (e : option Expr) : M handle :=
  do o <- deref nav in
  newNavigableExpr_h (Some nav) e (obj_typeMap o).

Definition ID_h (nav : handle) : M Z :=
  do o <- deref nav in ret (GetId (obj_expr o)).

Definition Kind_h (nav : handle) : M ExprKind :=
  do o <- deref nav in ret (obj_kind o).

Definition Children_h (nav : handle) : M (list handle) :=
  do o <- deref nav in
  match obj_createChildren o with
  | noopFactory => ret []
  | selectFactory =>
      do c <- createChild_h nav (GetOperand (GetSelectExpr (obj_expr o))) in
      ret [c]
  | callArgFactory =>
      let call := GetCallExpr (obj_expr o) in
      do t <- match GetTarget call with
              | Some t => do c <- createChild_h nav (Some t) in ret [c]
              | None => ret []
              end in
      do args <- mapM (createChild_h nav) (GetArgs call) in
      ret (t ++ args)
  | listElemFactory =>
      mapM (createChild_h nav) (GetElements (GetListExpr (obj_expr o)))
  | structEntryFactory =>
      mapM (fun e => createChild_h nav (GetValue e))
           (GetEntries (GetStructExpr (obj_expr o)))
  | mapEntryFactory =>
      do kvs <- mapM (fun e => do k <- createChild_h nav (GetMapKey e) in
                               do v <- createChild_h nav (GetValue e) in
                               ret [k; v])
                     (GetEntries (GetStructExpr (obj_expr o))) in
      ret (concat kvs)
  | comprehensionFactory =>
      let compre := GetComprehensionExpr (obj_expr o) in
      do c1 <- createChild_h nav (GetIterRange compre) in
      do c2 <- createChild_h nav (GetAccuInit compre) in
      do c3 <- createChild_h nav (GetLoopCondition compre) in
      do c4 <- createChild_h nav (GetLoopStep compre) in
      do c5 <- createChild_h nav (GetResult compre) in
      ret [c1; c2; c3; c4; c5]
  end.

(** The raw expressions a factory passes to [createChild], in call order. *)
Definition childExprs (f : childFactory) (e : option Expr)
  : list (option Expr) :=
  match f with
  | noopFactory => []
  | selectFactory => [GetOperand (GetSelectExpr e)]
  | callArgFactory =>
      match GetTarget (GetCallExpr e) with
      | Some t => [Some t]
      | None => []
      end ++ GetArgs (GetCallExpr e)
  | listElemFactory => GetElements (GetListExpr e)
  | structEntryFactory => map GetValue (GetEntries (GetStructExpr e))
  | mapEntryFactory =>
      flat_map (fun en => [GetMapKey en; GetValue en])
               (GetEntries (GetStructExpr e))
  | comprehensionFactory =>
      let compre := GetComprehensionExpr e in
      [GetIterRange compre; GetAccuInit compre; GetLoopCondition compre;
       GetLoopStep compre; GetResult compre]
  end.

(** The object [createChild_h nav e] allocates. *)
Definition childObj (nav : handle) (tm : gmap Z Ty) (e : option Expr)
  : navigableExprObj :=
  {| obj_parent := Some nav; obj_kind := (kindOf e).1; obj_expr := e;
     obj_typeMap := tm; obj_createChildren := (kindOf e).2 |}.

(** ** Building raw expressions

    Constructors for raw expressions, as a parser would produce them; the
    sample expressions below are written with them. *)

Definition mkConst (id : Z) (c : Constant) : Expr :=
  Build_Expr id (Some (Expr_ConstExpr (Some c))).

Definition mkIdent (id : Z) (name : string) : Expr :=
  Build_Expr id (Some (Expr_IdentExpr (Some {| Ident_Name := name |}))).

Definition mkSelect (id : Z) (operand : Expr) (field : string) : Expr :=
  Build_Expr id (Some (Expr_SelectExpr (Some
    {| Select_Operand := Some operand; Select_Field := field;
       Select_TestOnly := false |}))).

Definition mkCall (id : Z) (target : option Expr) (function : string)
    (args : list Expr) : Expr :=
  Build_Expr id (Some (Expr_CallExpr (Some
    {| Call_Target := target; Call_Function := function;
       Call_Args := map Some args |}))).

Definition mkList (id : Z) (elements : list Expr) : Expr :=
  Build_Expr id (Some (Expr_ListExpr (Some
    {| CreateList_Elements := map Some elements;
       CreateList_OptionalIndices := [] |}))).

Definition mkField (id : Z) (name : string) (value : Expr)
  : Expr_CreateStruct_Entry Expr :=
  {| Entry_Id := id; Entry_KeyKind := Some (Entry_FieldKey name);
     Entry_Value := Some value; Entry_OptionalEntry := false |}.

Definition mkMapEntry (id : Z) (key value : Expr)
  : Expr_CreateStruct_Entry Expr :=
  {| Entry_Id := id; Entry_KeyKind := Some (Entry_MapKey (Some key));
     Entry_Value := Some value; Entry_OptionalEntry := false |}.

Definition mkStruct (id : Z) (messageName : string)
    (entries : list (Expr_CreateStruct_Entry Expr)) : Expr :=
  Build_Expr id (Some (Expr_StructExpr (Some
    {| CreateStruct_MessageName := messageName;
       CreateStruct_Entries := map Some entries |}))).

Definition mkComprehension (id : Z) (iterVar : string) (iterRange : Expr)
    (accuVar : string) (accuInit loopCondition loopStep result : Expr) : Expr :=
  Build_Expr id (Some (Expr_ComprehensionExpr (Some
    {| Comprehension_IterVar := iterVar;
       Comprehension_IterRange := Some iterRange;
       Comprehension_AccuVar := accuVar;
       Comprehension_AccuInit := Some accuInit;
       Comprehension_LoopCondition := Some loopCondition;
       Comprehension_LoopStep := Some loopStep;
       Comprehension_Result := Some result |}))).

(** The root node of a checked AST with an empty type map. *)
Definition navigate (e : Expr) : navigableExprImpl :=
  NavigateCheckedAST {| CheckedAST_Expr := Some e; CheckedAST_TypeMap := ∅ |}.

(** [greet(name)] and [name.greet()]. *)
Definition sample_greet_call : Expr :=
  mkCall 1 None "greet" [mkIdent 2 "name"].

Definition sample_greet_method : Expr :=
  mkCall 1 (Some (mkIdent 2 "name")) "greet" [].

(** [a && (b || c)]. *)
Definition sample_and_or : Expr :=
  mkCall 1 None "_&&_"
    [mkIdent 2 "a"; mkCall 3 None "_||_" [mkIdent 4 "b"; mkIdent 5 "c"]].

(** [T{f: x}] and [{k: v}]. *)
Definition sample_struct : Expr :=
  mkStruct 1 "T" [mkField 2 "f" (mkIdent 3 "x")].

Definition sample_map : Expr :=
  mkStruct 1 EmptyString [mkMapEntry 2 (mkIdent 3 "k") (mkIdent 4 "v")].

(** A raw expression whose oneof is not set. *)
Definition sample_unset : Expr := Build_Expr 1 None.

(** A list of three literals, and a list with a call among its elements. *)
Definition sample_list3 (c : Constant) : Expr :=
  mkList 1 [mkConst 2 c; mkConst 3 c; mkConst 4 c].

Definition sample_list_call (c : Constant) : Expr :=
  mkList 1 [mkConst 2 c; mkCall 3 None "f" []; mkConst 4 c].

(** A fold of [items] into [sum]. *)
Definition sample_comprehension (c : Constant) : Expr :=
  mkComprehension 1 "x" (mkIdent 2 "items") "sum" (mkConst 3 c)
    (mkConst 4 c)
    (mkCall 5 None "_+_" [mkIdent 6 "sum"; mkIdent 7 "x"])
    (mkIdent 8 "sum").

(** [o.field] where [sample_select] is the raw tree of such a select. *)
Definition sample_select : Expr := mkSelect 1 (mkIdent 2 "o") "field".

(** ** Notions used by the further properties *)

(** [Parent], taken [k] times; [None] when the root is passed. *)
Fixpoint ascend (k : nat) (n : navigableExprImpl) : option navigableExprImpl :=
  match k with
  | 0 => Some n
  | S k' =>
      match ascend k' n with
      | Some a => (Parent a).1
      | None => None
      end
  end.

(** The kinds [matchIsConstantValue] does not reject outright. *)
Definition isConstantKind (k : ExprKind) : bool :=
  match k with
  | LiteralKind | ListKind | MapKind | StructKind => true
  | _ => false
  end.

(** The object [newNavigableExpr_h None e tm] puts in the store. *)
Definition rootObj (e : option Expr) (tm : gmap Z Ty) : navigableExprObj :=
  {| obj_parent := None; obj_kind := (kindOf e).1; obj_expr := e;
     obj_typeMap := tm; obj_createChildren := (kindOf e).2 |}.

(** * Properties *)

(** ** What [newNavigableExpr] fixes *)

Lemma expr_newNavigableExpr p e tm : expr (newNavigableExpr p e tm) = e.
Proof. unfold newNavigableExpr. by destruct (kindOf e). Qed.

Lemma typeMap_newNavigableExpr p e tm : typeMap (newNavigableExpr p e tm) = tm.
Proof. unfold newNavigableExpr. by destruct (kindOf e). Qed.

Lemma parent_newNavigableExpr p e tm : parent (newNavigableExpr p e tm) = p.
Proof. unfold newNavigableExpr. by destruct (kindOf e). Qed.

Lemma kind_newNavigableExpr p e tm :
  kind (newNavigableExpr p e tm) = (kindOf e).1.
Proof. unfold newNavigableExpr. by destruct (kindOf e). Qed.

Lemma createChildren_newNavigableExpr p e tm :
  createChildren (newNavigableExpr p e tm) = (kindOf e).2.
Proof. unfold newNavigableExpr. by destruct (kindOf e). Qed.

Lemma constructed_newNavigableExpr p e tm : constructed (newNavigableExpr p e tm).
Proof.
  unfold constructed.
  by rewrite parent_newNavigableExpr, expr_newNavigableExpr,
    typeMap_newNavigableExpr.
Qed.

Lemma constructed_fields nav :
  constructed nav ->
  kind nav = (kindOf (expr nav)).1 ∧ createChildren nav = (kindOf (expr nav)).2.
Proof.
  intros ->. rewrite kind_newNavigableExpr, createChildren_newNavigableExpr.
  by rewrite expr_newNavigableExpr.
Qed.

Lemma Children_createChild nav :
  Forall (fun c => ∃ e, c = createChild nav e) (Children nav).
Proof.
  unfold Children. destruct (createChildren nav); simpl.
  - constructor.
  - repeat constructor; eauto.
  - apply Forall_app; split.
    + destruct (GetTarget _); repeat constructor; eauto.
    + apply List.Forall_forall. intros c [e [<- _]]%in_map_iff. eauto.
  - apply List.Forall_forall. intros c [e [<- _]]%in_map_iff. eauto.
  - apply List.Forall_forall. intros c [e [<- _]]%in_map_iff. eauto.
  - apply List.Forall_forall. intros c [e [_ Hc]]%in_flat_map.
    destruct Hc as [<- | [<- | []]]; eauto.
  - repeat constructor; eauto.
Qed.

Lemma Children_constructed nav : Forall constructed (Children nav).
Proof.
  eapply Forall_impl; [apply Children_createChild|].
  intros c [e ->]. apply constructed_newNavigableExpr.
Qed.

Lemma Children_childExprs nav :
  Children nav
  = map (createChild nav) (childExprs (createChildren nav) (expr nav)).
Proof.
  unfold Children, ToExpr.
  destruct (createChildren nav); cbn [childExprs]; try done.
  - rewrite map_app. by destruct (GetTarget _).
  - by rewrite map_map.
  - induction (GetEntries _) as [|en l IH]; [done|]. simpl. by rewrite IH.
Qed.


(** What [kindOf] says about the raw payload of a node of each kind. *)
Lemma kindOf_payload e :
  ((kindOf e).1 ≠ LiteralKind -> GetConstExpr e = None)
  ∧ ((kindOf e).1 ≠ IdentKind -> GetIdentExpr e = None)
  ∧ ((kindOf e).1 ≠ SelectKind -> GetSelectExpr e = None)
  ∧ ((kindOf e).1 ≠ CallKind -> GetCallExpr e = None)
  ∧ ((kindOf e).1 ≠ ListKind -> GetListExpr e = None)
  ∧ ((kindOf e).1 ≠ StructKind -> GetMessageName (GetStructExpr e) = EmptyString)
  ∧ ((kindOf e).1 ≠ StructKind -> (kindOf e).1 ≠ MapKind -> GetStructExpr e = None)
  ∧ ((kindOf e).1 ≠ ComprehensionKind -> GetComprehensionExpr e = None).
Proof.
  unfold kindOf, GetConstExpr, GetIdentExpr, GetSelectExpr, GetCallExpr,
    GetListExpr, GetStructExpr, GetComprehensionExpr.
  destruct (GetExprKind e) as [[c|i|s|c|l|s|c]|]; simpl;
    repeat split; try done.
  - destruct (String.eqb_spec (GetMessageName s) EmptyString); simpl; done.
  - destruct (negb _); simpl; done.
Qed.

(** ** The node count *)

Lemma osize_pos e : 0 < osize e.
Proof. destruct e as [[]|]; simpl; lia. Qed.

Lemma list_sum_map_ext {A} (f g : A -> nat) l :
  (∀ x, f x = g x) -> list_sum (map f l) = list_sum (map g l).
Proof. intros H. induction l; simpl; congruence. Qed.

Lemma list_sum_map_Forall {A} (f g : A -> nat) l :
  Forall (fun x => f x = g x) l -> list_sum (map f l) = list_sum (map g l).
Proof. induction 1; simpl; congruence. Qed.

Lemma list_sum_flat_map {A B} (f : A -> list B) (g : B -> nat) l :
  list_sum (map g (flat_map f l))
  = list_sum (map (fun x => list_sum (map g (f x))) l).
Proof.
  induction l as [|x l IH]; simpl; [done|].
  by rewrite map_app, list_sum_app, IH.
Qed.

(** A constructed node spans exactly the nodes [esize] counts. *)
Lemma weight_newNavigableExpr p e tm :
  weight (newNavigableExpr p e tm) = osize e.
Proof.
  unfold weight, Children, ToExpr.
  rewrite createChildren_newNavigableExpr, expr_newNavigableExpr.
  set (nav := newNavigableExpr p e tm).
  assert (Hc : ∀ x, osize (expr (createChild nav x)) = osize x).
  { intros x. unfold createChild. by rewrite expr_newNavigableExpr. }
  assert (Hm : ∀ l, list_sum (map (fun c => osize (expr c))
                                   (map (createChild nav) l))
                    = list_sum (map osize l)).
  { intros l. rewrite map_map. by apply list_sum_map_ext. }
  destruct e as [[id [[c|i|s|c|l|s|c]|]]|]; simpl; try done.
  - rewrite Hc. destruct s; simpl; done.
  - destruct c as [c|]; simpl; [|done].
    rewrite map_app, list_sum_app, Hm.
    destruct (Call_Target c) as [t|]; simpl; [rewrite Hc|]; simpl;
      unfold osize; simpl; lia.
  - destruct l as [l|]; simpl; [|done]. by rewrite Hm.
  - destruct s as [s|]; simpl; [|done].
    unfold kindOf; simpl. destruct (negb _); simpl.
    + rewrite map_map. f_equal. apply list_sum_map_ext.
      intros [en|]; by rewrite Hc.
    + rewrite list_sum_flat_map. f_equal. apply list_sum_map_ext.
      intros en. cbn [map list_sum]. rewrite !Hc.
      destruct en as [en|]; [|done].
      unfold GetMapKey; simpl.
      destruct (Entry_KeyKind en) as [[]|]; simpl; unfold osize; simpl; lia.
  - rewrite !Hc. destruct c; simpl; unfold osize; simpl; lia.
Qed.

Lemma weight_constructed nav : constructed nav -> weight nav = osize (expr nav).
Proof. intros ->. by rewrite weight_newNavigableExpr, expr_newNavigableExpr. Qed.

(** Every node, constructed or not, weighs one more than its children. *)
Lemma weight_Children nav : weight nav = S (weights (Children nav)).
Proof.
  unfold weight at 1, weights. f_equal.
  apply list_sum_map_Forall.
  eapply Forall_impl; [apply Children_constructed|].
  intros c Hc. by rewrite weight_constructed.
Qed.

Lemma weight_pos nav : 0 < weight nav.
Proof. rewrite weight_Children. lia. Qed.

Lemma weights_app l1 l2 : weights (l1 ++ l2) = weights l1 + weights l2.
Proof. unfold weights. by rewrite map_app, list_sum_app. Qed.

Lemma weights_cons x l : weights (x :: l) = weight x + weights l.
Proof. done. Qed.

Lemma weights_elem c l : In c l -> weight c ≤ weights l.
Proof.
  induction l as [|x l IH]; [done|]. rewrite weights_cons.
  intros [->|H]; [lia|]. specialize (IH H). lia.
Qed.

(** ** The walker [matchListInternal] *)

Section Walker.
Variable matcher : ExprMatcher.
Variable visitDescendants : bool.

Lemma weights_step_visit e rest :
  weights (step_visit visitDescendants e rest) < weights (e :: rest).
Proof.
  unfold step_visit. rewrite weights_cons.
  destruct visitDescendants.
  - rewrite weights_app, (weight_Children e). lia.
  - pose proof (weight_pos e). lia.
Qed.

Lemma matchListInternal_fuel_mono fuel fuel' visit matched r :
  matchListInternal_fuel fuel visit matcher visitDescendants matched = Some r ->
  fuel ≤ fuel' ->
  matchListInternal_fuel fuel' visit matcher visitDescendants matched = Some r.
Proof.
  revert fuel' visit matched.
  induction fuel as [|fuel IH]; intros fuel' visit matched H Hle; [done|].
  destruct fuel' as [|fuel']; [lia|].
  simpl in *. destruct visit as [|e rest]; [done|].
  apply IH; [done|lia].
Qed.

Lemma matchListInternal_fuel_acc fuel visit matched :
  matchListInternal_fuel fuel visit matcher visitDescendants matched
  = (fun r => matched ++ r)
      <$> matchListInternal_fuel fuel visit matcher visitDescendants [].
Proof.
  revert visit matched.
  induction fuel as [|fuel IH]; intros visit matched; [done|].
  simpl. destruct visit as [|e rest]; simpl.
  - by rewrite app_nil_r.
  - rewrite IH. rewrite (IH _ (if matcher e then [e] else [])).
    rewrite <- option_fmap_compose. apply option_fmap_ext.
    intros r. simpl. destruct (matcher e); simpl.
    + by rewrite <- app_assoc.
    + done.
Qed.

Lemma matchListInternal_fuel_terminates fuel visit matched :
  weights visit < fuel ->
  is_Some (matchListInternal_fuel fuel visit matcher visitDescendants matched).
Proof.
  revert visit matched.
  induction fuel as [|fuel IH]; intros visit matched Hlt; [lia|].
  simpl. destruct visit as [|e rest]; [eauto|].
  apply IH. pose proof (weights_step_visit e rest) as H.
  unfold step_visit in H. lia.
Qed.

(** With enough fuel the loop returns what the total [matchListInternal]
    returns. *)
Lemma matchListInternal_fuel_enough fuel visit :
  weights visit < fuel ->
  matchListInternal_fuel fuel visit matcher visitDescendants []
  = Some (matchListInternal visit matcher visitDescendants).
Proof.
  intros Hlt. unfold matchListInternal.
  destruct (matchListInternal_fuel_terminates (S (weights visit)) visit [])
    as [r Hr]; [lia|].
  rewrite Hr. simpl.
  eapply matchListInternal_fuel_mono; [exact Hr|lia].
Qed.

Lemma matchListInternal_nil : matchListInternal [] matcher visitDescendants = [].
Proof. done. Qed.

Lemma matchListInternal_fuel_step fuel e rest matched :
  matchListInternal_fuel (S fuel) (e :: rest) matcher visitDescendants matched
  = matchListInternal_fuel fuel (step_visit visitDescendants e rest) matcher
      visitDescendants (matched ++ step_matched matcher e).
Proof.
  unfold step_matched, step_visit. simpl.
  destruct (matcher e); [done|]. by rewrite app_nil_r.
Qed.

Lemma matchListInternal_cons e rest :
  matchListInternal (e :: rest) matcher visitDescendants
  = step_matched matcher e
    ++ matchListInternal (step_visit visitDescendants e rest) matcher
         visitDescendants.
Proof.
  pose proof (matchListInternal_fuel_enough (S (weights (e :: rest)))
                (e :: rest) ltac:(lia)) as H.
  rewrite matchListInternal_fuel_step, matchListInternal_fuel_acc in H.
  rewrite (matchListInternal_fuel_enough _
             (step_visit visitDescendants e rest)) in H
    by apply weights_step_visit.
  simpl in H. by injection H as <-.
Qed.

End Walker.

(** *** Without descent the walker is a filter *)

Lemma matchListInternal_false matcher visit :
  matchListInternal visit matcher false = List.filter matcher visit.
Proof.
  induction visit as [|e rest IH]; [done|].
  rewrite matchListInternal_cons. unfold step_matched, step_visit.
  rewrite IH. simpl. by destruct (matcher e).
Qed.

Lemma matchListInternal_fuel_false fuel matcher visit matched :
  length visit < fuel ->
  matchListInternal_fuel fuel visit matcher false matched
  = Some (matched ++ List.filter matcher visit).
Proof.
  revert visit matched.
  induction fuel as [|fuel IH]; intros visit matched Hlt; [lia|].
  destruct visit as [|e rest]; simpl.
  - by rewrite app_nil_r.
  - rewrite IH by (simpl in Hlt; lia).
    destruct (matcher e); [|done]. by rewrite <- app_assoc.
Qed.

(** *** With descent the walker lists the tree level by level *)

Lemma level_flat_map d q :
  level (S d) q = level d (flat_map Children q).
Proof.
  induction d as [|d IH]; [done|].
  change (level (S (S d)) q) with (flat_map Children (level (S d) q)).
  by rewrite IH.
Qed.

Lemma breadthFirst_S n q :
  breadthFirst (S n) q = q ++ breadthFirst n (flat_map Children q).
Proof.
  unfold breadthFirst. rewrite <- cons_seq. cbn [flat_map level]. f_equal.
  rewrite <- seq_shift, flat_map_concat_map, map_map, <- flat_map_concat_map.
  apply flat_map_ext. intros d. apply level_flat_map.
Qed.

Lemma weights_nil_inv q : weights q = 0 -> q = [].
Proof.
  destruct q as [|e q]; [done|]. rewrite weights_cons.
  pose proof (weight_pos e). lia.
Qed.

Lemma weights_flat_map_Children q :
  weights (flat_map Children q) + length q = weights q.
Proof.
  induction q as [|e q IH]; [done|].
  cbn [flat_map length]. rewrite weights_app, weights_cons, (weight_Children e).
  lia.
Qed.

Lemma level_weights d q : weights (level d q) + d ≤ weights q ∨ level d q = [].
Proof.
  induction d as [|d IH]; [left; simpl; lia|].
  cbn [level]. destruct IH as [IH| ->]; [|by right].
  destruct (level d q) as [|e l] eqn:E; [by right|]. left.
  pose proof (weights_flat_map_Children (e :: l)). simpl length in *. lia.
Qed.

(** No node lies deeper than the node count. *)
Lemma level_beyond d q : weights q ≤ d -> level d q = [].
Proof.
  intros Hle. destruct (level_weights d q) as [H|H]; [|done].
  apply weights_nil_inv. destruct d; [|lia].
  simpl in *. lia.
Qed.

Lemma matchListInternal_true_app matcher q1 q2 :
  matchListInternal (q1 ++ q2) matcher true
  = List.filter matcher q1
    ++ matchListInternal (q2 ++ flat_map Children q1) matcher true.
Proof.
  revert q2. induction q1 as [|e q1 IH]; intros q2.
  - simpl. by rewrite app_nil_r.
  - rewrite <- app_comm_cons, matchListInternal_cons.
    unfold step_visit, step_matched.
    rewrite <- app_assoc, IH. cbn [flat_map List.filter].
    rewrite <- !app_assoc. by destruct (matcher e).
Qed.

Lemma matchListInternal_true_breadthFirst matcher n q :
  weights q ≤ n ->
  matchListInternal q matcher true = List.filter matcher (breadthFirst n q).
Proof.
  revert q. induction n as [|n IH]; intros q Hle.
  - assert (q = []) as -> by (apply weights_nil_inv; lia). done.
  - rewrite breadthFirst_S, List.filter_app.
    rewrite <- (app_nil_r q) at 1.
    rewrite matchListInternal_true_app. simpl. f_equal.
    apply IH. pose proof (weights_flat_map_Children q).
    destruct q; simpl in *; lia.
Qed.

Lemma filter_AllMatcher l : List.filter AllMatcher l = l.
Proof. induction l; simpl; congruence. Qed.

(** ** [matchIsConstantValue] *)

Lemma rangeChildren_mono (rec rec' : navigableExprImpl -> option bool) cs b :
  (∀ c b', rec c = Some b' -> rec' c = Some b') ->
  rangeChildren rec cs = Some b -> rangeChildren rec' cs = Some b.
Proof.
  intros Hrec. induction cs as [|c cs IH]; [done|]. simpl.
  destruct (rec c) as [[]|] eqn:E; [| |done].
  - rewrite (Hrec _ _ E). exact IH.
  - by rewrite (Hrec _ _ E).
Qed.

Lemma rangeChildren_forallb (rec : navigableExprImpl -> option bool) g cs :
  (∀ c, In c cs -> rec c = Some (g c)) ->
  rangeChildren rec cs = Some (forallb g cs).
Proof.
  induction cs as [|c cs IH]; intros Hrec; [done|]. simpl.
  rewrite (Hrec c) by (by left).
  destruct (g c); [|done]. apply IH. intros c' Hc'. apply Hrec. by right.
Qed.

Lemma matchIsConstantValue_fuel_mono fuel fuel' e b :
  matchIsConstantValue_fuel fuel e = Some b ->
  fuel ≤ fuel' ->
  matchIsConstantValue_fuel fuel' e = Some b.
Proof.
  revert fuel' e b.
  induction fuel as [|fuel IH]; intros fuel' e b H Hle; [done|].
  destruct fuel' as [|fuel']; [lia|]. simpl in *.
  repeat case_decide; try done.
  eapply rangeChildren_mono; [|exact H].
  intros c b' Hc. apply (IH fuel' c b' Hc). lia.
Qed.

Lemma matchIsConstantValue_fuel_terminates fuel e :
  weight e ≤ fuel -> is_Some (matchIsConstantValue_fuel fuel e).
Proof.
  revert e. induction fuel as [|fuel IH]; intros e Hle.
  - pose proof (weight_pos e). lia.
  - simpl. repeat case_decide; eauto.
    rewrite weight_Children in Hle.
    assert (Hcs : ∀ c, In c (Children e) -> weight c ≤ fuel).
    { intros c Hc%weights_elem. lia. }
    clear Hle. induction (Children e) as [|c cs IHcs]; [by eexists|]. simpl.
    destruct (IH c) as [[] Hb]; [apply Hcs; by left| |]; rewrite Hb; [|eauto].
    apply IHcs. intros c' Hc'. apply Hcs. by right.
Qed.

(** With enough fuel the recursion returns what the total
    [matchIsConstantValue] returns. *)
Lemma matchIsConstantValue_fuel_enough fuel e :
  weight e ≤ fuel ->
  matchIsConstantValue_fuel fuel e = Some (matchIsConstantValue e).
Proof.
  intros Hle. unfold matchIsConstantValue.
  destruct (matchIsConstantValue_fuel_terminates (weight e) e) as [b Hb];
    [done|].
  rewrite Hb. simpl. by eapply matchIsConstantValue_fuel_mono.
Qed.

(** The body of the source function, as an equation of the total one. *)
Lemma matchIsConstantValue_unfold e :
  matchIsConstantValue e
  = if decide (Kind e = LiteralKind) then true
    else if decide (Kind e = StructKind ∨ Kind e = MapKind ∨ Kind e = ListKind)
         then forallb matchIsConstantValue (Children e)
         else false.
Proof.
  pose proof (matchIsConstantValue_fuel_enough (weight e) e ltac:(done)) as H.
  rewrite weight_Children in H. simpl in H.
  repeat case_decide; try congruence.
  rewrite (rangeChildren_forallb _ matchIsConstantValue) in H; [congruence|].
  intros c Hc%weights_elem. by apply matchIsConstantValue_fuel_enough.
Qed.

(** ** Children in the store of node objects *)

Lemma createChild_h_run nav o e s :
  s !! nav = Some o ->
  createChild_h nav e s
  = Some (length s, s ++ [childObj nav (obj_typeMap o) e]).
Proof.
  intros Hnav. unfold createChild_h, bind, deref. rewrite Hnav.
  unfold newNavigableExpr_h, childObj. by destruct (kindOf e).
Qed.

Lemma mapM_createChild_h_run {A} (g : A -> option Expr) nav o l s :
  s !! nav = Some o ->
  mapM (fun x => createChild_h nav (g x)) l s
  = Some (seq (length s) (length l),
          s ++ map (fun x => childObj nav (obj_typeMap o) (g x)) l).
Proof.
  intros Hnav. revert s Hnav.
  induction l as [|x l IH]; intros s Hnav; simpl.
  - unfold ret. by rewrite app_nil_r.
  - unfold bind at 1. rewrite (createChild_h_run nav o) by done.
    unfold bind. rewrite IH by (by apply lookup_app_l_Some).
    unfold ret. rewrite length_app, <- app_assoc. simpl.
    by rewrite Nat.add_1_r.
Qed.

(** One call of [Children_h] allocates one object per raw child, in the
    order of [childExprs], and returns their handles. *)
Lemma Children_h_run nav o s :
  s !! nav = Some o ->
  Children_h nav s
  = let es := childExprs (obj_createChildren o) (obj_expr o) in
    Some (seq (length s) (length es),
          s ++ map (childObj nav (obj_typeMap o)) es).
Proof.
  intros Hnav. unfold Children_h, bind at 1, deref. rewrite Hnav.
  destruct (obj_createChildren o); cbn [childExprs].
  - unfold ret. by rewrite app_nil_r.
  - unfold bind. by rewrite (createChild_h_run nav o).
  - unfold bind at 1.
    destruct (GetTarget _) as [t|] eqn:Et.
    + unfold bind at 1. rewrite (createChild_h_run nav o) by done.
      unfold ret at 1, bind.
      rewrite (mapM_createChild_h_run (fun x => x) nav o)
        by (by apply lookup_app_l_Some).
      unfold ret. rewrite length_app, <- app_assoc. simpl.
      by rewrite Nat.add_1_r.
    + unfold ret at 1, bind.
      rewrite (mapM_createChild_h_run (fun x => x) nav o) by done.
      done.
  - by rewrite (mapM_createChild_h_run (fun x => x) nav o).
  - rewrite (mapM_createChild_h_run GetValue nav o) by done.
    by rewrite length_map, map_map.
  - unfold bind.
    assert (H : ∀ l s', s' !! nav = Some o ->
      mapM (fun e => do k <- createChild_h nav (GetMapKey e) in
                     do v <- createChild_h nav (GetValue e) in ret [k; v]) l s'
      = Some (map (fun i => [length s' + 2 * i; length s' + 2 * i + 1])
                  (seq 0 (length l)),
              s' ++ map (childObj nav (obj_typeMap o))
                        (flat_map (fun en => [GetMapKey en; GetValue en]) l))).
    { clear s Hnav. induction l as [|x l IH]; intros s' Hnav; simpl.
      - unfold ret. by rewrite app_nil_r.
      - unfold bind at 1. unfold bind at 1.
        rewrite (createChild_h_run nav o) by done.
        unfold bind at 1.
        rewrite (createChild_h_run nav o) by (by apply lookup_app_l_Some).
        unfold ret at 1. unfold bind.
        rewrite IH by (by do 2 apply lookup_app_l_Some).
        unfold ret. rewrite !length_app, <- !app_assoc. simpl.
        rewrite Nat.add_0_r. do 3 f_equal.
        rewrite <- seq_shift, map_map. apply map_ext. intros i.
        f_equal; [lia|f_equal; lia]. }
    rewrite H by done. unfold ret. do 2 f_equal.
    generalize (length s). clear.
    induction (GetEntries _) as [|x l IH]; intros n; [done|].
    cbn [length seq map concat flat_map app].
    rewrite <- seq_shift, map_map.
    specialize (IH (S (S n))). simpl in *.
    rewrite Nat.add_0_r, Nat.add_1_r. do 2 f_equal.
    rewrite <- IH. f_equal. apply map_ext. intros i.
    f_equal; [lia|f_equal; lia].
  - unfold bind, ret.
    rewrite (createChild_h_run nav o) by done.
    rewrite (createChild_h_run nav o) by (by apply lookup_app_l_Some).
    rewrite (createChild_h_run nav o) by (by do 2 apply lookup_app_l_Some).
    rewrite (createChild_h_run nav o) by (by do 3 apply lookup_app_l_Some).
    rewrite (createChild_h_run nav o) by (by do 4 apply lookup_app_l_Some).
    rewrite !length_app, <- !app_assoc. simpl.
    by rewrite !Nat.add_1_r.
Qed.

(** The objects one call of [Children_h] allocates are the nodes of
    [Children]: same kind, raw expression, type map and factory, in the
    same order. *)
Lemma Children_h_Children (s : store) (h : handle) (o : navigableExprObj)
    (nav : navigableExprImpl) :
  s !! h = Some o ->
  obj_expr o = expr nav -> obj_typeMap o = typeMap nav ->
  obj_createChildren o = createChildren nav ->
  ∃ cs s', Children_h h s = Some (cs, s')
    ∧ Forall2 (fun c n => ∃ o', s' !! c = Some o'
                 ∧ obj_parent o' = Some h
                 ∧ obj_kind o' = kind n ∧ obj_expr o' = expr n
                 ∧ obj_typeMap o' = typeMap n
                 ∧ obj_createChildren o' = createChildren n)
        cs (Children nav).
Proof.
  intros Hh He Htm Hf. eexists _, _. split; [by apply Children_h_run|].
  simpl. rewrite Children_childExprs, He, Htm, Hf.
  generalize (childExprs (createChildren nav) (expr nav)). intros es.
  apply Forall2_same_length_lookup. split.
  - by rewrite length_seq, length_map.
  - intros i c n [-> Hi]%lookup_seq Hn.
    change (map (createChild nav) es) with (createChild nav <$> es) in Hn.
    apply list_lookup_fmap_Some in Hn as (x & -> & Hx).
    exists (childObj h (typeMap nav) x). split.
    + rewrite lookup_app_r by lia.
      replace (length s + i - length s) with i by lia.
      change (map (childObj h (typeMap nav)) es)
        with (childObj h (typeMap nav) <$> es).
      by rewrite list_lookup_fmap, Hx.
    + unfold createChild. simpl.
      by rewrite kind_newNavigableExpr, expr_newNavigableExpr,
        typeMap_newNavigableExpr, createChildren_newNavigableExpr.
Qed.

(** ** Positions: every node of the tree is listed once *)

Lemma descend_snoc root path i :
  descend root (path ++ [i])
  = match descend root path with
    | Some n => Children n !! i
    | None => None
    end.
Proof.
  revert root. induction path as [|j path IH]; intros root; simpl.
  - by destruct (Children root !! i).
  - destruct (Children root !! j); [apply IH|done].
Qed.

Lemma map_snd_childrenAt pn : map snd (childrenAt pn) = Children pn.2.
Proof.
  unfold childrenAt.
  assert (H : ∀ (f : nat -> list nat) (l : list navigableExprImpl),
             map snd (imap (fun i c => (f i, c)) l) = l).
  { intros f l. revert f. induction l as [|c l IH]; intros f; [done|].
    simpl. f_equal. apply (IH (f ∘ S)). }
  apply H.
Qed.

Lemma In_childrenAt pn q c :
  In (q, c) (childrenAt pn) ↔ ∃ i, q = pn.1 ++ [i] ∧ Children pn.2 !! i = Some c.
Proof.
  unfold childrenAt. rewrite <- list_elem_of_In, elem_of_lookup_imap.
  split.
  - intros (i & c' & [= -> ->] & H). eauto.
  - intros (i & -> & H). eauto.
Qed.

Lemma map_snd_levelAt d q : map snd (levelAt d q) = level d (map snd q).
Proof.
  induction d as [|d IH]; [done|]. simpl. rewrite <- IH.
  generalize (levelAt d q). intros l.
  induction l as [|pn l IHl]; [done|]. simpl.
  by rewrite map_app, map_snd_childrenAt, IHl.
Qed.

Lemma In_levelAt root d p n :
  In (p, n) (levelAt d [([], root)]) ↔ length p = d ∧ descend root p = Some n.
Proof.
  revert p n. induction d as [|d IH]; intros p n.
  - simpl. split.
    + intros [[= <- <-]|[]]. done.
    + intros [->%length_zero_iff_nil [= ->]]. by left.
  - cbn [levelAt]. rewrite in_flat_map. split.
    + intros ([q m] & [Hl Hd]%IH & (i & -> & Hc)%In_childrenAt). simpl in *.
      rewrite length_app, descend_snoc, Hd. simpl. split; [lia|done].
    + intros [Hl Hd].
      destruct (decide (p = [])) as [->|Hne]; [done|].
      destruct (exists_last Hne) as (q & i & ->).
      rewrite length_app in Hl. simpl in Hl.
      rewrite descend_snoc in Hd.
      destruct (descend root q) as [m|] eqn:Hq; [|done].
      exists (q, m). split.
      * apply IH. split; [lia|done].
      * apply In_childrenAt. eauto.
Qed.

Lemma NoDup_flat_map_disjoint {A B} (f : A -> list B) l :
  NoDup l ->
  (∀ x, In x l -> NoDup (f x)) ->
  (∀ x y z, In x l -> In y l -> In z (f x) -> In z (f y) -> x = y) ->
  NoDup (flat_map f l).
Proof.
  induction 1 as [|x l Hx Hl IH]; intros Hf Hdisj; simpl; [constructor|].
  apply NoDup_app. split; [apply Hf; by left|]. split.
  - intros z Hz%list_elem_of_In [y [Hy Hzy]]%list_elem_of_In%in_flat_map.
    assert (x = y) as -> by (eapply Hdisj; eauto; [by left|by right]).
    by apply Hx, list_elem_of_In.
  - apply IH.
    + intros y Hy. apply Hf. by right.
    + intros y y' z Hy Hy'. apply Hdisj; by right.
Qed.

Lemma NoDup_levelAt root d : NoDup (levelAt d [([], root)]).
Proof.
  induction d as [|d IH]; [apply NoDup_singleton|].
  cbn [levelAt]. apply NoDup_flat_map_disjoint; [done| |].
  - intros [p n] _. unfold childrenAt. simpl.
    apply NoDup_alt. intros i j [q c].
    rewrite !list_lookup_imap_Some.
    intros (c1 & H1 & [= -> ->]) (c2 & H2 & [= E%app_inj_tail _]).
    by destruct E as [_ ->].
  - intros [p n] [p' n'] [q c] Hx Hy.
    intros (i & -> & Hi)%In_childrenAt (j & [E _]%app_inj_tail & Hj)%In_childrenAt.
    simpl in *. subst p'.
    apply In_levelAt in Hx as [_ Hx]. apply In_levelAt in Hy as [_ Hy].
    congruence.
Qed.

Lemma In_breadthFirstAt root n p m :
  In (p, m) (breadthFirstAt n root) ↔ length p < n ∧ descend root p = Some m.
Proof.
  unfold breadthFirstAt. rewrite in_flat_map. split.
  - intros (d & Hd%in_seq & [<- H]%In_levelAt). split; [lia|done].
  - intros [Hlt H]. exists (length p). split; [apply in_seq; lia|].
    by apply In_levelAt.
Qed.

Lemma NoDup_breadthFirstAt root n : NoDup (breadthFirstAt n root).
Proof.
  apply NoDup_flat_map_disjoint.
  - apply NoDup_ListNoDup, seq_NoDup.
  - intros d _. apply NoDup_levelAt.
  - intros d d' [p m] _ _ [<- _]%In_levelAt [<- _]%In_levelAt. done.
Qed.

Lemma NoDup_positions root n : NoDup (map fst (breadthFirstAt n root)).
Proof.
  change (NoDup (fst <$> breadthFirstAt n root)).
  apply NoDup_fmap_2_strong; [|apply NoDup_breadthFirstAt].
  intros [p m] [p' m'] [_ H]%list_elem_of_In%In_breadthFirstAt
    [_ H']%list_elem_of_In%In_breadthFirstAt. simpl. intros <-. congruence.
Qed.

Lemma map_snd_breadthFirstAt root n :
  map snd (breadthFirstAt n root) = breadthFirst n [root].
Proof.
  unfold breadthFirstAt, breadthFirst.
  induction (seq 0 n) as [|d l IH]; [done|]. simpl.
  by rewrite map_app, IH, map_snd_levelAt.
Qed.

(** A position that exists is shallower than the node count. *)
Lemma descend_length root p m : descend root p = Some m -> length p < weight root.
Proof.
  intros H. destruct (decide (length p < weight root)) as [|Hge]; [done|].
  assert (In (p, m) (levelAt (length p) [([], root)])) as Hin
    by (by apply In_levelAt).
  apply (in_map snd) in Hin. rewrite map_snd_levelAt in Hin. simpl in Hin.
  rewrite level_beyond in Hin; [done|].
  change (weights [root]) with (weight root + 0). lia.
Qed.

(** ** The order of the positions *)

Lemma lex_lt_snoc p i j : i < j -> lex_lt (p ++ [i]) (p ++ [j]).
Proof. intros Hlt. induction p as [|k p IH]; simpl; [by left|by right]. Qed.

Lemma lex_lt_app p q a b : lex_lt p q -> lex_lt (p ++ a) (q ++ b).
Proof.
  revert q. induction p as [|i p' IH]; intros [|j q']; simpl; try done.
  intros [Hlt|[Heq H]]; [by left|right]. split; [done|by apply IH].
Qed.

Lemma StronglySorted_flat_map {A B} (R : relation A) (R' : relation B)
    (f : A -> list B) l :
  StronglySorted R l ->
  (∀ x, x ∈ l -> StronglySorted R' (f x)) ->
  (∀ x y a b, x ∈ l -> y ∈ l -> R x y -> a ∈ f x -> b ∈ f y -> R' a b) ->
  StronglySorted R' (flat_map f l).
Proof.
  induction 1 as [|x l Hl IH Hx]; intros Hin Hcross; simpl; [constructor|].
  apply StronglySorted_app. split; [|split].
  - intros a b Ha [y [Hy Hb]]%list_elem_of_In%in_flat_map.
    apply list_elem_of_In in Hy, Hb.
    apply (Hcross x y); [left|by right| |done|done].
    rewrite List.Forall_forall in Hx. by apply Hx, list_elem_of_In.
  - apply Hin. left.
  - apply IH.
    + intros y Hy. apply Hin. by right.
    + intros y y' a b Hy Hy'. apply Hcross; by right.
Qed.

Lemma StronglySorted_imap {A B} (R : relation B) (g : nat -> A -> B) l :
  (∀ i j x y, i < j -> R (g i x) (g j y)) -> StronglySorted R (imap g l).
Proof.
  revert g. induction l as [|x l IH]; intros g Hg; simpl; constructor.
  - apply IH. intros i j a b Hlt. apply Hg. lia.
  - apply Forall_forall. intros b (j & y & -> & _)%elem_of_lookup_imap.
    apply Hg. lia.
Qed.

Lemma StronglySorted_weaken {A} (R R' : relation A) l :
  StronglySorted R l ->
  (∀ x y, x ∈ l -> y ∈ l -> R x y -> R' x y) ->
  StronglySorted R' l.
Proof.
  induction 1 as [|x l Hl IH Hx]; intros HR; constructor.
  - apply IH. intros a b Ha Hb. apply HR; by right.
  - apply Forall_forall. intros y Hy. apply HR; [left|by right|].
    rewrite Forall_forall in Hx. by apply Hx.
Qed.

Lemma StronglySorted_seq a n : StronglySorted lt (seq a n).
Proof.
  revert a. induction n as [|n IH]; intros a; simpl; constructor; [apply IH|].
  apply List.Forall_forall. intros b Hb%in_seq. lia.
Qed.

Lemma levelAt_sorted root d :
  StronglySorted (fun x y => lex_lt x.1 y.1) (levelAt d [([], root)]).
Proof.
  induction d as [|d IH]; [repeat constructor|].
  cbn [levelAt]. eapply StronglySorted_flat_map; [exact IH| |].
  - intros [p n] _. unfold childrenAt. apply StronglySorted_imap.
    intros i j x y Hlt. simpl. by apply lex_lt_snoc.
  - intros [p n] [q m] [a c] [b c'] _ _ Hpq.
    intros (i & -> & _)%list_elem_of_In%In_childrenAt.
    intros (j & -> & _)%list_elem_of_In%In_childrenAt.
    simpl in *. by apply lex_lt_app.
Qed.

(** The positions are listed in breadth-first order. *)
Lemma breadthFirstAt_sorted root n :
  StronglySorted (fun x y => shortlex_lt x.1 y.1) (breadthFirstAt n root).
Proof.
  unfold breadthFirstAt.
  eapply StronglySorted_flat_map; [apply StronglySorted_seq| |].
  - intros d _. eapply StronglySorted_weaken; [apply levelAt_sorted|].
    intros [p m] [q m'] [Hp _]%list_elem_of_In%In_levelAt
      [Hq _]%list_elem_of_In%In_levelAt Hlex.
    right. simpl in *. split; [congruence|done].
  - intros d d' [p m] [q m'] _ _ Hlt [Hp _]%list_elem_of_In%In_levelAt
      [Hq _]%list_elem_of_In%In_levelAt.
    left. simpl. lia.
Qed.

(** * The claims *)

(** C2: [ConstantValueMatcher]'s predicate is true for a node exactly when
    the node is of kind Literal, or is of kind List, Map or Struct and every
    node of [Children] satisfies the predicate (so it is true when there are
    no children); it is false for every node of kind Ident, Select, Call,
    Comprehension or Unspecified.  The recursion returns this value whenever
    its fuel is at least the node count. *)
Theorem ConstantValueMatcher_spec (e : navigableExprImpl) :
  (ConstantValueMatcher e = true
   ↔ Kind e = LiteralKind
     ∨ ((Kind e = ListKind ∨ Kind e = MapKind ∨ Kind e = StructKind)
        ∧ Forall (fun c => ConstantValueMatcher c = true) (Children e)))
  ∧ ((Kind e = ListKind ∨ Kind e = MapKind ∨ Kind e = StructKind)
     ∧ Children e = [] -> ConstantValueMatcher e = true)
  ∧ (Kind e = IdentKind ∨ Kind e = SelectKind ∨ Kind e = CallKind
     ∨ Kind e = ComprehensionKind ∨ Kind e = UnspecifiedKind
     -> ConstantValueMatcher e = false)
  ∧ (∀ fuel, weight e ≤ fuel ->
       matchIsConstantValue_fuel fuel e = Some (ConstantValueMatcher e)).
Proof.
  unfold ConstantValueMatcher.
  split; [|split; [|split]].
  - rewrite matchIsConstantValue_unfold.
    repeat case_decide.
    + split; [by left|done].
    + rewrite forallb_forall, <- List.Forall_forall. split.
      * intros H'. right. split; [|done]. tauto.
      * intros [?|[_ ?]]; done.
    + split; [done|]. intros [?|[? _]]; [done|tauto].
  - intros [Hk Hc]. rewrite matchIsConstantValue_unfold, Hc. simpl.
    repeat case_decide; try done. tauto.
  - intros Hk. rewrite matchIsConstantValue_unfold.
    repeat case_decide; try done.
    + destruct Hk as [?|[?|[?|[?|?]]]]; congruence.
    + exfalso. destruct Hk as [?|[?|[?|[?|?]]]];
        destruct H0 as [?|[?|?]]; congruence.
  - intros fuel. apply matchIsConstantValue_fuel_enough.
Qed.

(** C3: [MatchDescendants root AllMatcher] returns the tree below [root] in
    breadth-first order: the levels of the tree one after the other, the
    root first, each level listing the children of the level above in the
    order of their parents and, under one parent, in the order of
    [Children].  The loop returns it with any fuel above the node count.
    The list holds every position of the tree exactly once, and the
    positions are in breadth-first order: a node at a smaller depth comes
    before a deeper one (so a node comes before its children), and nodes of
    one depth are in the order of the child indices that lead to them. *)
Theorem MatchDescendants_AllMatcher_breadth_first (root : navigableExprImpl) :
  (∀ fuel, weight root < fuel ->
     matchListInternal_fuel fuel [root] AllMatcher true []
     = Some (MatchDescendants root AllMatcher))
  ∧ MatchDescendants root AllMatcher = breadthFirst (weight root) [root]
  ∧ (∀ d, weight root ≤ d -> level d [root] = [])
  ∧ head (MatchDescendants root AllMatcher) = Some root
  ∧ MatchDescendants root AllMatcher
    = map snd (breadthFirstAt (weight root) root)
  ∧ NoDup (map fst (breadthFirstAt (weight root) root))
  ∧ (∀ p n, In (p, n) (breadthFirstAt (weight root) root)
            ↔ descend root p = Some n)
  ∧ StronglySorted (fun x y => shortlex_lt x.1 y.1)
      (breadthFirstAt (weight root) root).
Proof.
  assert (Hw : weights [root] = weight root).
  { change (weights [root]) with (weight root + 0). lia. }
  assert (Hbf : MatchDescendants root AllMatcher
                = breadthFirst (weight root) [root]).
  { unfold MatchDescendants.
    rewrite (matchListInternal_true_breadthFirst _ (weight root)) by lia.
    apply filter_AllMatcher. }
  split; [|split; [|split; [|split; [|split; [|split; [|split]]]]]].
  - intros fuel Hlt. apply matchListInternal_fuel_enough. lia.
  - exact Hbf.
  - intros d Hd. apply level_beyond. lia.
  - rewrite Hbf. pose proof (weight_pos root) as Hpos.
    destruct (weight root) as [|n]; [lia|]. by rewrite breadthFirst_S.
  - by rewrite map_snd_breadthFirstAt.
  - apply NoDup_positions.
  - intros p n. rewrite In_breadthFirstAt. split; [by intros [_ ?]|].
    intros H. split; [|done]. by eapply descend_length.
  - apply breadthFirstAt_sorted.
Qed.

(** C4: [MatchSubset list matcher] returns exactly the elements of [list]
    for which [matcher] is true, in the order of [list]; what it returns is
    in [list], and a child of an element that is not itself in [list] is
    not returned even when [matcher] accepts it. *)
Theorem MatchSubset_filter (exprs : list navigableExprImpl)
    (matcher : ExprMatcher) :
  MatchSubset exprs matcher = List.filter matcher exprs
  ∧ (∀ fuel, length exprs < fuel ->
       matchListInternal_fuel fuel exprs matcher false []
       = Some (MatchSubset exprs matcher))
  ∧ (∀ e, In e (MatchSubset exprs matcher) ↔ In e exprs ∧ matcher e = true)
  ∧ (∀ e c, In e exprs -> In c (Children e) -> matcher c = true ->
            ¬ In c exprs -> ¬ In c (MatchSubset exprs matcher)).
Proof.
  assert (H : MatchSubset exprs matcher = List.filter matcher exprs)
    by apply matchListInternal_false.
  split; [exact H|]. rewrite H. split; [|split].
  - intros fuel Hlt. by rewrite matchListInternal_fuel_false.
  - intros e. apply filter_In.
  - intros e c _ _ _ Hc [Hin _]%filter_In. done.
Qed.



(** C7: when [AsLiteral] is called on a node of kind Literal and the
    conversion function returns an error for the node's constant payload,
    [AsLiteral] panics with that error: it neither returns a value nor
    returns nil.  The conversion function is called once, on the payload. *)
Theorem AsLiteral_conversion_failure
    (ConstantToVal : option Constant -> option Val * option error)
    (nav : navigableExprImpl) (val : option Val) (err : error) :
  Kind nav = LiteralKind ->
  ConstantToVal (GetConstExpr (ToExpr nav)) = (val, Some err) ->
  run ConstantToVal (AsLiteral nav) = Panicked err
  ∧ (∀ v, run ConstantToVal (AsLiteral nav) ≠ Returned v)
  ∧ conversions ConstantToVal (AsLiteral nav) = [GetConstExpr (ToExpr nav)].
Proof.
  intros Hk Hconv. unfold AsLiteral. rewrite decide_False by (by intros ?).
  simpl. rewrite Hconv. done.
Qed.

(** C8: [Type] returns the type the shared map holds for the node's
    identifier when there is one, and [DynType] when there is none; the
    children of a node look their types up in the same map. *)
Theorem Type_lookup (nav : navigableExprImpl) :
  (∀ t, typeMap nav !! ID nav = Some t -> Type_ nav = t)
  ∧ (typeMap nav !! ID nav = None -> Type_ nav = DynType)
  ∧ Forall (fun c => typeMap c = typeMap nav) (Children nav).
Proof.
  unfold Type_. split; [|split].
  - by intros t ->.
  - by intros ->.
  - eapply Forall_impl; [apply Children_createChild|].
    intros c [x ->]. apply typeMap_newNavigableExpr.
Qed.

(** C9: two successive calls of [Children] on a node return sequences of
    the same length whose nodes at each position have the same identifier
    and the same kind; the handles of the second call are not those of the
    first. *)
Theorem Children_twice_value_equal (s : store) (nav : handle)
    (o : navigableExprObj) :
  s !! nav = Some o ->
  ∃ cs1 s1 cs2 s2,
    Children_h nav s = Some (cs1, s1)
    ∧ Children_h nav s1 = Some (cs2, s2)
    ∧ length cs1 = length cs2
    ∧ ∀ i c1 c2, cs1 !! i = Some c1 -> cs2 !! i = Some c2 ->
        c1 ≠ c2
        ∧ ∃ id k, ID_h c1 s2 = Some (id, s2) ∧ ID_h c2 s2 = Some (id, s2)
                  ∧ Kind_h c1 s2 = Some (k, s2) ∧ Kind_h c2 s2 = Some (k, s2).
Proof.
  intros Hnav.
  set (es := childExprs (obj_createChildren o) (obj_expr o)).
  set (objs := map (childObj nav (obj_typeMap o)) es).
  assert (Hlen : length objs = length es) by apply length_map.
  assert (Hnav1 : (s ++ objs) !! nav = Some o) by (by apply lookup_app_l_Some).
  exists (seq (length s) (length es)), (s ++ objs),
    (seq (length (s ++ objs)) (length es)), ((s ++ objs) ++ objs).
  split; [by rewrite (Children_h_run nav o)|].
  split; [by rewrite (Children_h_run nav o)|].
  split; [by rewrite !length_seq|].
  intros i c1 c2 [-> Hi]%lookup_seq [-> _]%lookup_seq.
  rewrite length_app. split; [lia|].
  destruct (lookup_lt_is_Some_2 objs i) as [obj Hobj]; [lia|].
  assert (H1 : ((s ++ objs) ++ objs) !! (length s + i) = Some obj).
  { apply lookup_app_l_Some. rewrite lookup_app_r by lia.
    by replace (length s + i - length s) with i by lia. }
  assert (H2 : ((s ++ objs) ++ objs) !! (length s + length objs + i) = Some obj).
  { rewrite lookup_app_r by (rewrite length_app; lia).
    rewrite length_app.
    by replace (length s + length objs + i - (length s + length objs))
      with i by lia. }
  exists (GetId (obj_expr obj)), (obj_kind obj).
  unfold ID_h, Kind_h, bind, deref, ret. cbv beta.
  by rewrite H1, H2.
Qed.

(** C10: [AsLiteral] on a node whose kind is not Literal returns nil and
    is a program that does not call the conversion function at all:
    whatever that function is, the result is nil and the list of
    conversions made is empty. *)
Theorem AsLiteral_wrong_kind
    (ConstantToVal : option Constant -> option Val * option error)
    (nav : navigableExprImpl) :
  Kind nav ≠ LiteralKind ->
  AsLiteral nav = Ret None
  ∧ run ConstantToVal (AsLiteral nav) = Returned None
  ∧ conversions ConstantToVal (AsLiteral nav) = [].
Proof.
  intros Hk. unfold AsLiteral. by rewrite decide_True.
Qed.

(** * Further properties *)

(** ** Lemmas shared by the further properties *)

Lemma weights_singleton root : weights [root] = weight root.
Proof. change (weights [root]) with (weight root + 0). lia. Qed.

Lemma MatchDescendants_filter root matcher :
  MatchDescendants root matcher
  = List.filter matcher (breadthFirst (weight root) [root]).
Proof.
  unfold MatchDescendants. apply matchListInternal_true_breadthFirst.
  by rewrite weights_singleton.
Qed.

Lemma In_breadthFirst root n :
  In n (breadthFirst (weight root) [root]) ↔ ∃ p, descend root p = Some n.
Proof.
  rewrite <- map_snd_breadthFirstAt, in_map_iff. split.
  - intros ([p m] & <- & [_ H]%In_breadthFirstAt). eauto.
  - intros [p H]. exists (p, n). split; [done|].
    apply In_breadthFirstAt. split; [|done]. by eapply descend_length.
Qed.

Lemma filter_filter_andb {A} (f g : A -> bool) l :
  List.filter g (List.filter f l) = List.filter (fun x => f x && g x) l.
Proof.
  induction l as [|x l IH]; [done|]. simpl.
  destruct (f x); simpl; [|done]. destruct (g x); by rewrite IH.
Qed.

Lemma filter_length_partition {A} (f : A -> bool) l :
  length (List.filter f l) + length (List.filter (fun x => negb (f x)) l)
  = length l.
Proof.
  induction l as [|x l IH]; [done|]. simpl. destruct (f x); simpl; lia.
Qed.

Lemma length_breadthFirst n q :
  weights q ≤ n -> length (breadthFirst n q) = weights q.
Proof.
  revert q. induction n as [|n IH]; intros q Hle.
  - assert (q = []) as -> by (apply weights_nil_inv; lia). done.
  - rewrite breadthFirst_S, length_app.
    pose proof (weights_flat_map_Children q) as Hw.
    rewrite IH; [lia|]. destruct q; simpl in *; lia.
Qed.

(** X1: [MatchDescendants root matcher] returns exactly the nodes of the
    tree below [root] (the root included) that the matcher accepts, in
    breadth-first order: it is the breadth-first listing of the tree with
    the rejected nodes left out. *)
Theorem MatchDescendants_sound_complete (root : navigableExprImpl)
    (matcher : ExprMatcher) :
  MatchDescendants root matcher
  = List.filter matcher (MatchDescendants root AllMatcher)
  ∧ ∀ n, In n (MatchDescendants root matcher)
         ↔ (∃ p, descend root p = Some n) ∧ matcher n = true.
Proof.
  rewrite !MatchDescendants_filter, filter_AllMatcher. split; [done|].
  intros n. by rewrite filter_In, In_breadthFirst.
Qed.

(** X2: narrowing the result of a search with [MatchSubset] is the search
    for the conjunction of the two matchers; in particular the list
    [AllMatcher] flattens the tree into can be searched with [MatchSubset]
    instead of walking the tree again. *)
Theorem MatchSubset_of_MatchDescendants (root : navigableExprImpl)
    (m1 m2 : ExprMatcher) :
  MatchSubset (MatchDescendants root m1) m2
  = MatchDescendants root (fun e => m1 e && m2 e)
  ∧ MatchSubset (MatchDescendants root AllMatcher) m2
    = MatchDescendants root m2.
Proof.
  unfold MatchSubset. rewrite !matchListInternal_false.
  rewrite !MatchDescendants_filter, !filter_filter_andb. done.
Qed.

(** X3: two successive [MatchSubset] calls narrow to the nodes both
    matchers accept, whatever the order of the two calls; narrowing twice by
    one matcher changes nothing. *)
Theorem MatchSubset_compose (exprs : list navigableExprImpl)
    (m1 m2 : ExprMatcher) :
  MatchSubset (MatchSubset exprs m1) m2
  = MatchSubset exprs (fun e => m1 e && m2 e)
  ∧ MatchSubset (MatchSubset exprs m1) m2
    = MatchSubset (MatchSubset exprs m2) m1
  ∧ MatchSubset (MatchSubset exprs m1) m1 = MatchSubset exprs m1.
Proof.
  unfold MatchSubset. rewrite !matchListInternal_false, !filter_filter_andb.
  split; [done|]. split.
  - induction exprs as [|e l IH]; [done|]. simpl.
    destruct (m1 e), (m2 e); simpl; by rewrite IH.
  - induction exprs as [|e l IH]; [done|]. simpl.
    destruct (m1 e); simpl; by rewrite IH.
Qed.

(** X4: [MatchDescendants root AllMatcher] has as many elements as the
    tree has nodes; for the root of a checked AST that is the node count
    [osize] of the raw expression.  A matcher and its negation split that
    list, so no search returns more than the node count. *)
Theorem MatchDescendants_length (root : navigableExprImpl)
    (matcher : ExprMatcher) :
  length (MatchDescendants root AllMatcher) = weight root
  ∧ (∀ ast, root = NavigateCheckedAST ast ->
       length (MatchDescendants root AllMatcher) = osize (CheckedAST_Expr ast))
  ∧ length (MatchDescendants root matcher)
    + length (MatchDescendants root (fun e => negb (matcher e)))
    = weight root
  ∧ length (MatchDescendants root matcher) ≤ weight root.
Proof.
  assert (Hall : length (MatchDescendants root AllMatcher) = weight root).
  { rewrite MatchDescendants_filter, filter_AllMatcher.
    rewrite length_breadthFirst by (by rewrite weights_singleton).
    apply weights_singleton. }
  assert (Hsplit : length (MatchDescendants root matcher)
    + length (MatchDescendants root (fun e => negb (matcher e)))
    = weight root).
  { rewrite !MatchDescendants_filter, filter_length_partition.
    rewrite length_breadthFirst by (by rewrite weights_singleton).
    apply weights_singleton. }
  split; [exact Hall|]. split; [|split; [exact Hsplit|lia]].
  intros ast ->. rewrite Hall. apply weight_newNavigableExpr.
Qed.

Lemma Children_lookup_createChild nav i c :
  Children nav !! i = Some c -> ∃ e, c = createChild nav e.
Proof.
  intros H. pose proof (Children_createChild nav) as HF.
  rewrite Forall_forall in HF. apply HF. by eapply list_elem_of_lookup_2.
Qed.

(** X5: every node of the tree looks its type up in the type map of the
    root, and every node strictly below the root is one that
    [newNavigableExpr] built: its kind and its child factory are those
    [kindOf] gives for its raw expression, and it has a parent. *)
Theorem descendants_share_typeMap (root : navigableExprImpl) (p : list nat)
    (n : navigableExprImpl) :
  descend root p = Some n ->
  typeMap n = typeMap root
  ∧ Type_ n = default DynType (typeMap root !! ID n)
  ∧ (p ≠ [] ->
     constructed n
     ∧ Kind n = (kindOf (ToExpr n)).1
     ∧ createChildren n = (kindOf (ToExpr n)).2
     ∧ (Parent n).2 = true).
Proof.
  revert root. induction p as [|i p IH]; intros root; simpl.
  - intros [= ->]. split; [done|]. split; [|done].
    unfold Type_. by destruct (typeMap n !! ID n).
  - destruct (Children root !! i) as [c|] eqn:Hc; [|done].
    apply Children_lookup_createChild in Hc as [e ->].
    intros Hn. destruct (IH _ Hn) as (Htm & HT & Hcons).
    assert (Hc : typeMap (createChild root e) = typeMap root)
      by apply typeMap_newNavigableExpr.
    rewrite Hc in Htm, HT.
    split; [done|]. split; [done|]. intros _.
    destruct (decide (p = [])) as [->|Hne]; [|by apply Hcons].
    simpl in Hn. injection Hn as <-.
    unfold Kind, ToExpr, Parent, createChild.
    rewrite kind_newNavigableExpr, createChildren_newNavigableExpr,
      expr_newNavigableExpr, parent_newNavigableExpr.
    split; [apply constructed_newNavigableExpr|done].
Qed.

(** X6: [Parent] undoes [Children].  The parent of each child of a node is
    that node, the root of a checked AST has no parent, and from the node at
    a position of the tree as many [Parent] steps as the position is deep
    lead back to the root. *)
Theorem Parent_inverts_Children (root : navigableExprImpl) :
  Forall (fun c => Parent c = (Some root, true)) (Children root)
  ∧ (∀ ast, Parent (NavigateCheckedAST ast) = (None, false))
  ∧ (∀ p n, descend root p = Some n -> ascend (length p) n = Some root).
Proof.
  split; [|split].
  - eapply Forall_impl; [apply Children_createChild|].
    intros c [e ->]. unfold Parent, createChild.
    by rewrite parent_newNavigableExpr.
  - intros ast. unfold Parent, NavigateCheckedAST.
    by rewrite parent_newNavigableExpr.
  - intros p. revert root. induction p as [|i p IH]; intros root n; simpl.
    + by intros [= ->].
    + destruct (Children root !! i) as [c|] eqn:Hc; [|done].
      intros Hn. rewrite (IH _ _ Hn).
      apply Children_lookup_createChild in Hc as [e ->].
      unfold Parent, createChild. by rewrite parent_newNavigableExpr.
Qed.

Lemma constructed_Literal_no_Children nav :
  constructed nav -> Kind nav = LiteralKind -> Children nav = [].
Proof.
  intros [Hk Hf]%constructed_fields HL. unfold Kind in HL.
  rewrite Hk in HL. unfold Children. rewrite Hf.
  revert HL. unfold kindOf.
  destruct (GetExprKind (expr nav)) as [[]|]; try done.
  by destruct (negb _).
Qed.

Lemma isConstantKind_spec k :
  isConstantKind k = true
  ↔ k = LiteralKind ∨ k = StructKind ∨ k = MapKind ∨ k = ListKind.
Proof. destruct k; simpl; split; try done; intros H; intuition congruence. Qed.

Lemma descend_cons_inv root i p n :
  descend root (i :: p) = Some n ->
  ∃ c, Children root !! i = Some c ∧ descend c p = Some n.
Proof. simpl. destruct (Children root !! i) as [c|]; [eauto|done]. Qed.

Lemma matchIsConstantValue_descendants e :
  constructed e ->
  matchIsConstantValue e = true
  ↔ ∀ p n, descend e p = Some n -> isConstantKind (Kind n) = true.
Proof.
  remember (weight e) as w eqn:Hw. revert e Hw.
  induction w as [w IH] using lt_wf_ind. intros e -> Hcons.
  rewrite matchIsConstantValue_unfold.
  destruct (decide (Kind e = LiteralKind)) as [HL|HL].
  { split; [|done]. intros _ [|i p] n.
    - intros [= <-]. by rewrite HL.
    - simpl. by rewrite (constructed_Literal_no_Children e). }
  assert (Hchild : ∀ c, In c (Children e) ->
    matchIsConstantValue c = true
    ↔ ∀ p n, descend c p = Some n -> isConstantKind (Kind n) = true).
  { intros c Hc. apply (IH (weight c)); [|done|].
    - apply weights_elem in Hc. rewrite (weight_Children e). lia.
    - pose proof (Children_constructed e) as HF.
      rewrite List.Forall_forall in HF. by apply HF. }
  destruct (decide (Kind e = StructKind ∨ Kind e = MapKind ∨ Kind e = ListKind))
    as [HC|HC].
  - rewrite forallb_forall. split.
    + intros Hall [|i p] n.
      * intros [= <-]. apply isConstantKind_spec. by right.
      * intros (c & Hc & Hn)%descend_cons_inv.
        assert (Hin : In c (Children e))
          by (by eapply list_elem_of_In, list_elem_of_lookup_2).
        exact (proj1 (Hchild c Hin) (Hall c Hin) p n Hn).
    + intros Hall c Hc. apply (proj2 (Hchild c Hc)). intros p n Hn.
      destruct (list_elem_of_lookup_1 _ _ (proj2 (list_elem_of_In _ _) Hc))
        as [i Hi].
      apply (Hall (i :: p)). simpl. by rewrite Hi.
  - split; [done|]. intros Hall.
    specialize (Hall [] e eq_refl). apply isConstantKind_spec in Hall.
    tauto.
Qed.

(** X7: on a constructed node [ConstantValueMatcher] is true exactly when
    no node of the tree below it (the node included) is of kind Ident,
    Select, Call, Comprehension or Unspecified; that is, when a search of
    the tree for such a node finds nothing. *)
Theorem ConstantValueMatcher_descendants (e : navigableExprImpl) :
  constructed e ->
  (ConstantValueMatcher e = true
   ↔ ∀ p n, descend e p = Some n -> isConstantKind (Kind n) = true)
  ∧ (ConstantValueMatcher e = true
     ↔ MatchDescendants e (fun n => negb (isConstantKind (Kind n))) = []).
Proof.
  intros Hcons. unfold ConstantValueMatcher.
  pose proof (matchIsConstantValue_descendants e Hcons) as H.
  split; [exact H|]. rewrite H, MatchDescendants_filter. split.
  - intros Hall.
    destruct (List.filter _ _) as [|n l] eqn:E; [done|]. exfalso.
    assert (Hin : In n (n :: l)) by (by left).
    rewrite <- E in Hin. apply filter_In in Hin as [[p Hp]%In_breadthFirst Hn].
    rewrite (Hall p n Hp) in Hn. done.
  - intros Hnil p n Hp.
    destruct (isConstantKind (Kind n)) eqn:E; [done|]. exfalso.
    assert (Hin : In n (List.filter
      (fun n => negb (isConstantKind (Kind n)))
      (breadthFirst (weight e) [e]))).
    { apply filter_In. split; [apply In_breadthFirst; eauto|by rewrite E]. }
    by rewrite Hnil in Hin.
Qed.

(** The factory [kindOf] picks is a function of the kind it picks. *)
Lemma kindOf_factory e :
  (kindOf e).2
  = match (kindOf e).1 with
    | UnspecifiedKind | LiteralKind | IdentKind => noopFactory
    | SelectKind => selectFactory
    | CallKind => callArgFactory
    | ListKind => listElemFactory
    | MapKind => mapEntryFactory
    | StructKind => structEntryFactory
    | ComprehensionKind => comprehensionFactory
    end.
Proof.
  unfold kindOf. destruct (GetExprKind e) as [[]|]; try done.
  by destruct (negb _).
Qed.

Lemma constructed_Children nav k :
  constructed nav -> Kind nav = k ->
  createChildren nav
  = match k with
    | UnspecifiedKind | LiteralKind | IdentKind => noopFactory
    | SelectKind => selectFactory
    | CallKind => callArgFactory
    | ListKind => listElemFactory
    | MapKind => mapEntryFactory
    | StructKind => structEntryFactory
    | ComprehensionKind => comprehensionFactory
    end.
Proof.
  intros [Hk Hf]%constructed_fields <-. unfold Kind.
  rewrite Hf, Hk. apply kindOf_factory.
Qed.

(** X8: on a constructed node of kind List the elements of the List view
    are one node per raw element, in order, each wrapping its raw element,
    and [Size] is their number. *)
Theorem List_view_Elements (nav : navigableExprImpl) :
  constructed nav ->
  Kind nav = ListKind ->
  navigableListImpl_Elements (AsList nav)
  = map (createChild nav) (GetElements (GetListExpr (ToExpr nav)))
  ∧ map ToExpr (navigableListImpl_Elements (AsList nav))
    = GetElements (GetListExpr (ToExpr nav))
  ∧ length (navigableListImpl_Elements (AsList nav))
    = navigableListImpl_Size (AsList nav).
Proof.
  intros Hc Hk. unfold navigableListImpl_Elements, navigableListImpl_Size.
  simpl. unfold Children. rewrite (constructed_Children nav _ Hc Hk).
  split; [done|]. split; [|by rewrite length_map].
  rewrite map_map. rewrite <- (map_id (GetElements _)) at 2.
  apply map_ext. intros e. apply expr_newNavigableExpr.
Qed.

(** X9: on a constructed node of kind Map the children are the key and
    the value of each entry of the Map view, entry by entry, so there are
    twice as many children as [Size] says there are entries. *)
Theorem Map_view_Children (nav : navigableExprImpl) :
  constructed nav ->
  Kind nav = MapKind ->
  Children nav
  = flat_map (fun en => [navigableEntryImpl_Key en;
                         navigableEntryImpl_Value en])
             (navigableMapImpl_Entries (AsMap nav))
  ∧ navigableMapImpl_Size (AsMap nav)
    = length (navigableMapImpl_Entries (AsMap nav))
  ∧ length (Children nav) = 2 * navigableMapImpl_Size (AsMap nav).
Proof.
  intros Hc Hk. unfold navigableMapImpl_Entries, navigableMapImpl_Size.
  simpl. unfold Children. rewrite (constructed_Children nav _ Hc Hk).
  generalize (GetEntries (GetStructExpr (ToExpr nav))). intros l.
  split; [|split].
  - induction l as [|e l IH]; [done|]. simpl. by rewrite IH.
  - by rewrite length_map.
  - induction l as [|e l IH]; [done|]. simpl. rewrite IH. lia.
Qed.

(** X10: on a constructed node the type name of the Struct view is
    non-empty exactly when the node is of kind Struct, and then the children
    of the node are the values of the fields of the view, in order. *)
Theorem Struct_view_TypeName (nav : navigableExprImpl) :
  constructed nav ->
  (navigableStructImpl_TypeName (AsStruct nav) ≠ EmptyString
   ↔ Kind nav = StructKind)
  ∧ (Kind nav = StructKind ->
     Children nav
     = map navigableFieldImpl_Value
           (navigableStructImpl_Fields (AsStruct nav))).
Proof.
  intros Hc. split.
  - pose proof Hc as [Hk _]%constructed_fields.
    unfold navigableStructImpl_TypeName, Kind, ToExpr. simpl. rewrite Hk.
    unfold kindOf, GetStructExpr.
    destruct (GetExprKind (expr nav)) as [[c|i|s|c|l|s|c]|]; simpl;
      try (split; done).
    destruct (String.eqb_spec (GetMessageName s) EmptyString) as [E|E];
      simpl; split; done.
  - intros Hk. unfold navigableStructImpl_Fields. simpl.
    unfold Children. rewrite (constructed_Children nav _ Hc Hk).
    by rewrite map_map.
Qed.

(** X11: on a constructed node of kind Select the one child is the operand
    of the Select view. *)
Theorem Select_view_Operand (nav : navigableExprImpl) :
  constructed nav ->
  Kind nav = SelectKind ->
  Children nav = [navigableSelectImpl_Operand (AsSelect nav)].
Proof.
  intros Hc Hk. unfold Children.
  by rewrite (constructed_Children nav _ Hc Hk).
Qed.

(** X12: on a constructed node of kind Comprehension the children are the
    five nodes of the Comprehension view, in the order iteration range,
    accumulator initialiser, loop condition, loop step, result. *)
Theorem Comprehension_view_Children (nav : navigableExprImpl) :
  constructed nav ->
  Kind nav = ComprehensionKind ->
  Children nav
  = [navigableComprehensionImpl_IterRange (AsComprehension nav);
     navigableComprehensionImpl_AccuInit (AsComprehension nav);
     navigableComprehensionImpl_LoopCondition (AsComprehension nav);
     navigableComprehensionImpl_LoopStep (AsComprehension nav);
     navigableComprehensionImpl_Result (AsComprehension nav)].
Proof.
  intros Hc Hk. unfold Children.
  by rewrite (constructed_Children nav _ Hc Hk).
Qed.

(** X13: [AsLiteral] panics exactly when the node is of kind Literal and
    the conversion function returns an error for its payload, and then with
    that error; on a node of kind Literal whose payload converts it returns
    the converted value; it never calls the conversion function twice. *)
Theorem AsLiteral_outcome
    (ConstantToVal : option Constant -> option Val * option error)
    (nav : navigableExprImpl) :
  (∀ err, run ConstantToVal (AsLiteral nav) = Panicked err
          ↔ Kind nav = LiteralKind
            ∧ (ConstantToVal (GetConstExpr (ToExpr nav))).2 = Some err)
  ∧ (∀ val, Kind nav = LiteralKind ->
            ConstantToVal (GetConstExpr (ToExpr nav)) = (val, None) ->
            run ConstantToVal (AsLiteral nav) = Returned val)
  ∧ length (conversions ConstantToVal (AsLiteral nav)) ≤ 1.
Proof.
  unfold AsLiteral. split; [|split].
  - intros err. case_decide as Hk; simpl.
    + split; [done|]. by intros [? _].
    + destruct (ConstantToVal _) as [val [e|]]; simpl.
      * split; [intros [= ->]|intros [_ [= ->]]]; [|done].
        split; [|done]. by destruct (decide (Kind nav = LiteralKind)).
      * split; [done|]. by intros [_ ?].
  - intros val Hk Hconv. rewrite decide_False by (by intros ?).
    simpl. by rewrite Hconv.
  - case_decide; simpl; [lia|].
    destruct (ConstantToVal _) as [val [e|]]; simpl; lia.
Qed.

(** X14: on a constructed node [FunctionMatcher funcName] is true exactly
    when the raw expression is a call whose function is [funcName]; on a
    node that is not a call it is false even for the empty name, which is
    the name the Call view reports there. *)
Theorem FunctionMatcher_spec (funcName : string) (e : navigableExprImpl) :
  constructed e ->
  (FunctionMatcher funcName e = true
   ↔ ∃ c, GetExprKind (ToExpr e) = Some (Expr_CallExpr c)
          ∧ GetFunction c = funcName)
  ∧ (Kind e ≠ CallKind ->
     FunctionMatcher EmptyString e = false
     ∧ navigableCallImpl_FunctionName (AsCall e) = EmptyString).
Proof.
  intros [Hk _]%constructed_fields.
  unfold FunctionMatcher, navigableCallImpl_FunctionName, Kind, ToExpr.
  simpl. rewrite Hk. unfold kindOf, GetCallExpr.
  destruct (GetExprKind (expr e)) as [[c|i|s|c|l|s|c]|]; simpl.
  all: try (split; [split; [done|by intros (? & [=] & _)]|done]).
  - split; [|done]. rewrite String.eqb_eq. split; [eauto|].
    by intros (c' & [= <-] & ?).
  - destruct (negb _); simpl;
      (split; [split; [done|by intros (? & [=] & _)]|done]).
Qed.

(** X15: [Children_h] only allocates.  On a handle that points nowhere it
    fails.  On a valid handle it leaves every object of the store where it
    was, adds one object per child, and returns fresh, pairwise different
    handles to them; each new object has the handle of the node as parent,
    the type map of the node, and the kind and factory [kindOf] gives for
    its raw expression. *)
Theorem Children_h_allocates (s : store) (nav : handle) :
  (s !! nav = None -> Children_h nav s = None)
  ∧ (∀ o, s !! nav = Some o ->
       ∃ cs s', Children_h nav s = Some (cs, s')
         ∧ (∀ h o', s !! h = Some o' -> s' !! h = Some o')
         ∧ length s' = length s + length cs
         ∧ NoDup cs
         ∧ ∀ c, In c cs ->
             length s ≤ c
             ∧ ∃ o', s' !! c = Some o'
                 ∧ obj_parent o' = Some nav
                 ∧ obj_typeMap o' = obj_typeMap o
                 ∧ obj_kind o' = (kindOf (obj_expr o')).1
                 ∧ obj_createChildren o' = (kindOf (obj_expr o')).2).
Proof.
  split.
  - intros Hnone. unfold Children_h, bind, deref. by rewrite Hnone.
  - intros o Hnav. eexists _, _. split; [by apply Children_h_run|].
    simpl. set (es := childExprs (obj_createChildren o) (obj_expr o)).
    split; [|split; [|split]].
    + intros h o' Hh. by apply lookup_app_l_Some.
    + by rewrite length_app, length_map, length_seq.
    + apply NoDup_ListNoDup, seq_NoDup.
    + intros c [Hge Hlt]%in_seq. split; [done|].
      destruct (lookup_lt_is_Some_2 es (c - length s)) as [e He]; [lia|].
      exists (childObj nav (obj_typeMap o) e). split; [|done].
      rewrite lookup_app_r by lia.
      change (map (childObj nav (obj_typeMap o)) es)
        with (childObj nav (obj_typeMap o) <$> es).
      by rewrite list_lookup_fmap, He.
Qed.

Lemma level_app d q1 q2 : level d (q1 ++ q2) = level d q1 ++ level d q2.
Proof.
  induction d as [|d IH]; [done|]. simpl. by rewrite IH, flat_map_app.
Qed.

Lemma breadthFirst_app n q1 q2 :
  breadthFirst n (q1 ++ q2) ≡ₚ breadthFirst n q1 ++ breadthFirst n q2.
Proof.
  revert q1 q2. induction n as [|n IH]; intros q1 q2; [done|].
  rewrite !breadthFirst_S, flat_map_app, IH.
  rewrite <- !app_assoc. f_equiv.
  rewrite !app_assoc. f_equiv. apply Permutation_app_comm.
Qed.

Lemma breadthFirst_enough n n' q :
  weights q ≤ n -> weights q ≤ n' -> breadthFirst n q = breadthFirst n' q.
Proof.
  intros Hn Hn'.
  rewrite <- (filter_AllMatcher (breadthFirst n q)).
  rewrite <- (filter_AllMatcher (breadthFirst n' q)).
  by rewrite <- !matchListInternal_true_breadthFirst.
Qed.

Lemma List_filter_Permutation {A} (f : A -> bool) l1 l2 :
  l1 ≡ₚ l2 -> List.filter f l1 ≡ₚ List.filter f l2.
Proof.
  induction 1 as [|x l1 l2 _ IH|x y l|l1 l2 l3 _ IH1 _ IH2]; simpl.
  - done.
  - destruct (f x); by rewrite IH.
  - destruct (f x), (f y); try done. apply perm_swap.
  - by rewrite IH1.
Qed.

Lemma filter_breadthFirst_queue matcher n q :
  weights q ≤ n ->
  List.filter matcher (breadthFirst n q)
  ≡ₚ flat_map (fun c => MatchDescendants c matcher) q.
Proof.
  induction q as [|c q IH]; intros Hle.
  - simpl. by rewrite (breadthFirst_enough n 0 []) by (unfold weights; simpl; lia).
  - rewrite weights_cons in Hle. simpl.
    change (c :: q) with ([c] ++ q).
    rewrite (List_filter_Permutation _ _ _ (breadthFirst_app n [c] q)).
    rewrite List.filter_app, IH by lia. f_equiv.
    rewrite MatchDescendants_filter.
    rewrite (breadthFirst_enough n (weight c) [c]);
      rewrite ?weights_singleton; [done|lia|lia].
Qed.

(** X16: a search of the tree below a node finds what the matcher says of
    the node itself together with what the searches below each of its
    children find: the same nodes the same number of times, though the
    breadth-first order interleaves the children's results.  So whatever a
    search below a child finds, the search below the node finds too. *)
Theorem MatchDescendants_by_children (root : navigableExprImpl)
    (matcher : ExprMatcher) :
  MatchDescendants root matcher
  ≡ₚ (if matcher root then [root] else [])
     ++ flat_map (fun c => MatchDescendants c matcher) (Children root)
  ∧ ∀ c n, In c (Children root) -> In n (MatchDescendants c matcher) ->
           In n (MatchDescendants root matcher).
Proof.
  assert (H : MatchDescendants root matcher
    ≡ₚ (if matcher root then [root] else [])
       ++ flat_map (fun c => MatchDescendants c matcher) (Children root)).
  { rewrite MatchDescendants_filter, (weight_Children root), breadthFirst_S.
    rewrite List.filter_app. simpl. rewrite app_nil_r.
    rewrite filter_breadthFirst_queue by done.
    by destruct (matcher root). }
  split; [exact H|]. intros c n Hc Hn.
  apply list_elem_of_In. rewrite H. apply list_elem_of_In, in_or_app. right.
  apply in_flat_map. eauto.
Qed.

(** X17: the Map view and the Struct view read the same raw payload on
    every node, whatever its kind: the Map view has as many entries as the
    Struct view has fields, [Size] is that number, and entry and field at
    one position have the same value node and the same optional flag. *)
Theorem Map_Struct_views_share_payload (nav : navigableExprImpl) :
  length (navigableMapImpl_Entries (AsMap nav))
  = length (navigableStructImpl_Fields (AsStruct nav))
  ∧ navigableMapImpl_Size (AsMap nav)
    = length (navigableStructImpl_Fields (AsStruct nav))
  ∧ map (fun en => (navigableEntryImpl_Value en,
                    navigableEntryImpl_IsOptional en))
        (navigableMapImpl_Entries (AsMap nav))
    = map (fun f => (navigableFieldImpl_Value f,
                     navigableFieldImpl_IsOptional f))
          (navigableStructImpl_Fields (AsStruct nav)).
Proof.
  unfold navigableMapImpl_Entries, navigableMapImpl_Size,
    navigableStructImpl_Fields. simpl.
  by rewrite !length_map, !map_map.
Qed.

(** X18: on a constructed node these accessors of a view of a
    non-matching kind return empty results.  [AsIdent] is the empty string
    and [AsLiteral] returns nil; the Call view has an empty function name, no
    target and no arguments; the Select view has an empty field name, is not
    test-only, and its operand node wraps an absent raw expression; the List
    view has size 0 and no optional indices; the Struct view has an empty
    type name; on a node that is neither Map nor Struct the Map view has no
    entries and size 0 and the Struct view has no fields; the Comprehension
    view has empty variable names and its five node accessors wrap an absent
    raw expression.  A node that wraps an absent raw expression is of kind
    Unspecified, has identifier 0 and no children. *)
Theorem wrong_kind_views_empty
    (ConstantToVal : option Constant -> option Val * option error)
    (p : option navigableExprImpl) (e : option Expr) (tm : gmap Z Ty) :
  let nav := newNavigableExpr p e tm in
  (Kind nav ≠ IdentKind -> AsIdent nav = EmptyString)
  ∧ (Kind nav ≠ LiteralKind ->
     run ConstantToVal (AsLiteral nav) = Returned None)
  ∧ (Kind nav ≠ CallKind ->
     navigableCallImpl_FunctionName (AsCall nav) = EmptyString
     ∧ navigableCallImpl_Target (AsCall nav) = None
     ∧ navigableCallImpl_Args (AsCall nav) = [])
  ∧ (Kind nav ≠ SelectKind ->
     navigableSelectImpl_FieldName (AsSelect nav) = EmptyString
     ∧ navigableSelectImpl_IsTestOnly (AsSelect nav) = false
     ∧ navigableSelectImpl_Operand (AsSelect nav) = createChild nav None)
  ∧ (Kind nav ≠ ListKind ->
     navigableListImpl_Size (AsList nav) = 0
     ∧ navigableListImpl_OptionalIndices (AsList nav) = [])
  ∧ (Kind nav ≠ StructKind ->
     navigableStructImpl_TypeName (AsStruct nav) = EmptyString)
  ∧ (Kind nav ≠ MapKind -> Kind nav ≠ StructKind ->
     navigableMapImpl_Entries (AsMap nav) = []
     ∧ navigableMapImpl_Size (AsMap nav) = 0
     ∧ navigableStructImpl_Fields (AsStruct nav) = [])
  ∧ (Kind nav ≠ ComprehensionKind ->
     navigableComprehensionImpl_IterVar (AsComprehension nav) = EmptyString
     ∧ navigableComprehensionImpl_AccuVar (AsComprehension nav) = EmptyString
     ∧ navigableComprehensionImpl_IterRange (AsComprehension nav)
       = createChild nav None
     ∧ navigableComprehensionImpl_AccuInit (AsComprehension nav)
       = createChild nav None
     ∧ navigableComprehensionImpl_LoopCondition (AsComprehension nav)
       = createChild nav None
     ∧ navigableComprehensionImpl_LoopStep (AsComprehension nav)
       = createChild nav None
     ∧ navigableComprehensionImpl_Result (AsComprehension nav)
       = createChild nav None)
  ∧ (Kind (createChild nav None) = UnspecifiedKind
     ∧ ID (createChild nav None) = 0%Z
     ∧ ToExpr (createChild nav None) = None
     ∧ Children (createChild nav None) = []).
Proof.
  intros nav.
  destruct (kindOf_payload e) as (HL & HI & HS & HC & HLi & HN & HM & HCo).
  assert (He : ToExpr nav = e) by apply expr_newNavigableExpr.
  assert (Hk : Kind nav = (kindOf e).1) by apply kind_newNavigableExpr.
  rewrite Hk.
  split; [|split; [|split; [|split; [|split; [|split; [|split; [|split]]]]]]].
  - intros H. unfold AsIdent. by rewrite He, HI.
  - intros H. unfold AsLiteral. rewrite decide_True; [done|by rewrite Hk].
  - intros H.
    unfold navigableCallImpl_FunctionName, navigableCallImpl_Target,
      navigableCallImpl_Args. simpl. by rewrite He, HC.
  - intros H.
    unfold navigableSelectImpl_FieldName, navigableSelectImpl_IsTestOnly,
      navigableSelectImpl_Operand. simpl. by rewrite He, HS.
  - intros H.
    unfold navigableListImpl_Size, navigableListImpl_OptionalIndices.
    simpl. by rewrite He, HLi.
  - intros H. unfold navigableStructImpl_TypeName. simpl. by rewrite He, HN.
  - intros H1 H2.
    unfold navigableMapImpl_Entries, navigableMapImpl_Size,
      navigableStructImpl_Fields. simpl. by rewrite He, HM.
  - intros H.
    unfold navigableComprehensionImpl_IterVar,
      navigableComprehensionImpl_AccuVar, navigableComprehensionImpl_IterRange,
      navigableComprehensionImpl_AccuInit,
      navigableComprehensionImpl_LoopCondition,
      navigableComprehensionImpl_LoopStep, navigableComprehensionImpl_Result.
    simpl. by rewrite He, HCo.
  - done.
Qed.

End Navigable.

(** * Concrete instances

    The collaborators are instantiated: literal payloads and runtime values
    are numbers, errors and types are strings, ["dyn"] is the sentinel. *)

Example MatchDescendants_and_or_idents :
  map (AsIdent (Constant:=nat) (Ty:=string))
      (MatchDescendants (navigate sample_and_or) (KindMatcher IdentKind))
  = ["a"; "b"; "c"]%string.
Proof. vm_compute. reflexivity. Qed.

Example comprehension_Children_order :
  map (ID (Constant:=nat) (Ty:=string))
      (Children (navigate (sample_comprehension 0)))
  = [2; 3; 4; 5; 8]%Z.
Proof. vm_compute. reflexivity. Qed.

Example MatchDescendants_and_or_all :
  map (ID (Constant:=nat) (Ty:=string))
      (MatchDescendants (navigate sample_and_or) AllMatcher)
  = [1; 2; 3; 4; 5]%Z.
Proof. vm_compute. reflexivity. Qed.

Example greet_call_Children_Args :
  let nav : navigableExprImpl (Constant:=nat) (Ty:=string) :=
    navigate sample_greet_call in
  map ID (Children nav) = [2%Z]
  ∧ map ID (navigableCallImpl_Args (AsCall nav)) = [2%Z].
Proof. vm_compute. done. Qed.

Example greet_method_Children_Args :
  let nav : navigableExprImpl (Constant:=nat) (Ty:=string) :=
    navigate sample_greet_method in
  map ID (Children nav) = [2%Z]
  ∧ navigableCallImpl_Args (AsCall nav) = [].
Proof. vm_compute. done. Qed.

Example ConstantValueMatcher_samples :
  ConstantValueMatcher (Ty:=string) (navigate (sample_list3 0)) = true
  ∧ ConstantValueMatcher (Ty:=string) (navigate (sample_list_call 0)) = false
  ∧ ConstantValueMatcher (Constant:=nat) (Ty:=string)
      (navigate (mkList 1 [])) = true
  ∧ ConstantValueMatcher (Constant:=nat) (Ty:=string)
      (navigate (mkStruct 1 EmptyString [])) = true
  ∧ ConstantValueMatcher (Constant:=nat) (Ty:=string)
      (navigate (mkStruct 1 "T" [])) = true.
Proof. vm_compute. done. Qed.

Example Children_h_greet_call_twice :
  let s : list (navigableExprObj (Constant:=nat) (Ty:=string)) :=
    [rootObj (Some sample_greet_call) ∅] in
  ∃ s1 s2, Children_h 0 s = Some ([1], s1) ∧ Children_h 0 s1 = Some ([2], s2)
           ∧ s2 !! 1 = s2 !! 2.
Proof. eexists _, _. vm_compute. done. Qed.

(** Witness of X18: the Call view of an identifier node. *)
Lemma wrong_kind_views_empty_witness :
  let conv : option nat -> option nat * option string :=
    fun _ => (None, Some "malformed"%string) in
  let nav : navigableExprImpl (Constant:=nat) (Ty:=string) :=
    navigate (mkIdent 1 "a") in
  Kind nav ≠ CallKind
  ∧ navigableCallImpl_FunctionName (AsCall nav) = EmptyString
  ∧ navigableCallImpl_Target (AsCall nav) = None
  ∧ navigableCallImpl_Args (AsCall nav) = [].
Proof.
  intros conv nav.
  assert (H : Kind nav ≠ CallKind) by discriminate.
  split; [exact H|].
  exact (proj1 (proj2 (proj2
           (wrong_kind_views_empty conv None (Some (mkIdent 1 "a")) ∅))) H).
Defined.

(** C1: the code at the inputs where it fails the claim.  The views read
    the raw payload without looking at the kind, against the comment of the
    [NavigableExpr] interface ("Conversion of an expr to the wrong kind
    should produce a nil value") and unlike [AsLiteral], which checks the
    kind.  On the Struct-kind node of [T{f: x}] the Map view has one entry
    and size 1; on the Map-kind node of [{k: v}] the Struct view has one
    field; on the Call-kind node of [greet(name)] the List view has one
    element although its [Size] is 0; on an Ident-kind node whose identifier
    has a type the Call view has that type as return type.  On a node whose
    raw expression has no tag, which is of kind Unspecified, every view is
    empty. *)
Lemma AsMap_on_Struct_has_entries :
  let st : navigableExprImpl (Constant:=nat) (Ty:=string) :=
    navigate sample_struct in
  let mp : navigableExprImpl (Constant:=nat) (Ty:=string) :=
    navigate sample_map in
  let cl : navigableExprImpl (Constant:=nat) (Ty:=string) :=
    navigate sample_greet_call in
  let un : navigableExprImpl (Constant:=nat) (Ty:=string) :=
    navigate sample_unset in
  let idn : navigableExprImpl (Constant:=nat) (Ty:=string) :=
    newNavigableExpr None (Some (mkIdent 1 "a")) {[ 1%Z := "int"%string ]} in
  (Kind st = StructKind
   ∧ length (navigableMapImpl_Entries (AsMap st)) = 1
   ∧ navigableMapImpl_Size (AsMap st) = 1)
  ∧ (Kind mp = MapKind
     ∧ length (navigableStructImpl_Fields (AsStruct mp)) = 1)
  ∧ (Kind cl = CallKind
     ∧ length (navigableListImpl_Elements (AsList cl)) = 1
     ∧ navigableListImpl_Size (AsList cl) = 0)
  ∧ (Kind idn = IdentKind
     ∧ navigableCallImpl_ReturnType "dyn"%string (AsCall idn) = "int"%string)
  ∧ (Kind un = UnspecifiedKind
     ∧ AsIdent un = EmptyString
     ∧ AsLiteral (Val:=nat) (error:=string) un = Ret None
     ∧ navigableCallImpl_FunctionName (AsCall un) = EmptyString
     ∧ navigableCallImpl_Target (AsCall un) = None
     ∧ navigableCallImpl_Args (AsCall un) = []
     ∧ navigableListImpl_Elements (AsList un) = []
     ∧ navigableMapImpl_Entries (AsMap un) = []
     ∧ navigableStructImpl_Fields (AsStruct un) = []
     ∧ navigableSelectImpl_FieldName (AsSelect un) = EmptyString
     ∧ navigableComprehensionImpl_IterVar (AsComprehension un) = EmptyString).
Proof. vm_compute. repeat split. Qed.

(** Witness of C2: a list of three literals is constant-valued. *)
Lemma ConstantValueMatcher_spec_witness :
  Kind (Ty:=string) (navigate (sample_list3 0)) = ListKind
  ∧ ConstantValueMatcher (Ty:=string) (navigate (sample_list3 0)) = true.
Proof.
  split; [reflexivity|].
  apply (proj1 (ConstantValueMatcher_spec (navigate (sample_list3 0)))).
  right. split; [left; reflexivity|].
  repeat constructor.
Defined.

(** Witness of C3: the loop over [a && (b || c)] returns with fuel 6. *)
Lemma MatchDescendants_AllMatcher_breadth_first_witness :
  weight (Constant:=nat) (Ty:=string) (navigate sample_and_or) < 6
  ∧ matchListInternal_fuel 6 [navigate sample_and_or] AllMatcher true []
    = Some (MatchDescendants (Constant:=nat) (Ty:=string)
              (navigate sample_and_or) AllMatcher).
Proof.
  assert (H : weight (Constant:=nat) (Ty:=string) (navigate sample_and_or) < 6)
    by (vm_compute; lia).
  split; [exact H|].
  exact (proj1 (MatchDescendants_AllMatcher_breadth_first
                  (navigate sample_and_or)) 6 H).
Defined.

(** Witness of C4: the identifier [a] below [a && (b || c)] matches the
    kind matcher and is not returned for the list that holds the call. *)
Lemma MatchSubset_filter_witness :
  let e : navigableExprImpl (Constant:=nat) (Ty:=string) :=
    navigate sample_and_or in
  let c := createChild e (Some (mkIdent 2 "a")) in
  In e [e] ∧ In c (Children e) ∧ KindMatcher IdentKind c = true
  ∧ ¬ In c [e]
  ∧ ¬ In c (MatchSubset [e] (KindMatcher IdentKind)).
Proof.
  intros e c.
  assert (H1 : In e [e]) by (left; reflexivity).
  assert (H2 : In c (Children e)) by (left; reflexivity).
  assert (H3 : KindMatcher IdentKind c = true) by reflexivity.
  assert (H4 : ¬ In c [e]).
  { intros [H|[]]. apply (f_equal Kind) in H. discriminate H. }
  repeat split; try assumption.
  exact (proj2 (proj2 (proj2 (MatchSubset_filter [e] (KindMatcher IdentKind))))
           e c H1 H2 H3 H4).
Defined.



(** Witness of C7: a conversion function that rejects every payload. *)
Lemma AsLiteral_conversion_failure_witness :
  let conv : option nat -> option nat * option string :=
    fun _ => (None, Some "malformed"%string) in
  let nav : navigableExprImpl (Ty:=string) := navigate (mkConst 1 7) in
  Kind nav = LiteralKind
  ∧ conv (GetConstExpr (ToExpr nav)) = (None, Some "malformed"%string)
  ∧ run conv (AsLiteral nav) = Panicked "malformed"%string.
Proof.
  intros conv nav.
  split; [reflexivity|]. split; [reflexivity|].
  apply (AsLiteral_conversion_failure conv nav None "malformed"%string);
    reflexivity.
Defined.

(** Witness of C8: identifier 1 is in the type map, identifier 2 is not. *)
Lemma Type_lookup_witness :
  let tm : gmap Z string := {[ 1%Z := "int"%string ]} in
  let nav1 : navigableExprImpl (Constant:=nat) :=
    newNavigableExpr None (Some (mkIdent 1 "a")) tm in
  let nav2 : navigableExprImpl (Constant:=nat) :=
    newNavigableExpr None (Some (mkIdent 2 "b")) tm in
  typeMap nav1 !! ID nav1 = Some "int"%string
  ∧ Type_ "dyn"%string nav1 = "int"%string
  ∧ typeMap nav2 !! ID nav2 = None
  ∧ Type_ "dyn"%string nav2 = "dyn"%string.
Proof.
  intros tm nav1 nav2.
  assert (H1 : typeMap nav1 !! ID nav1 = Some "int"%string) by reflexivity.
  assert (H2 : typeMap nav2 !! ID nav2 = None) by reflexivity.
  split; [exact H1|]. split.
  - exact (proj1 (Type_lookup "dyn"%string nav1) _ H1).
  - split; [exact H2|].
    exact (proj1 (proj2 (Type_lookup "dyn"%string nav2)) H2).
Defined.

(** Witness of C9: the children of [greet(name)], fetched twice. *)
Lemma Children_twice_value_equal_witness :
  let s : list (navigableExprObj (Constant:=nat) (Ty:=string)) :=
    [rootObj (Some sample_greet_call) ∅] in
  s !! 0 = Some (rootObj (Some sample_greet_call) ∅)
  ∧ ∃ cs1 s1 cs2 s2,
      Children_h 0 s = Some (cs1, s1)
      ∧ Children_h 0 s1 = Some (cs2, s2)
      ∧ length cs1 = length cs2
      ∧ ∀ i c1 c2, cs1 !! i = Some c1 -> cs2 !! i = Some c2 ->
          c1 ≠ c2
          ∧ ∃ id k, ID_h c1 s2 = Some (id, s2) ∧ ID_h c2 s2 = Some (id, s2)
                    ∧ Kind_h c1 s2 = Some (k, s2)
                    ∧ Kind_h c2 s2 = Some (k, s2).
Proof.
  intros s.
  assert (H : s !! 0 = Some (rootObj (Some sample_greet_call) ∅))
    by reflexivity.
  split; [exact H|].
  exact (Children_twice_value_equal s 0 _ H).
Defined.

(** Witness of C10: an identifier node and a conversion function that
    rejects every payload. *)
Lemma AsLiteral_wrong_kind_witness :
  let conv : option nat -> option nat * option string :=
    fun _ => (None, Some "malformed"%string) in
  let nav : navigableExprImpl (Ty:=string) := navigate (mkIdent 1 "a") in
  Kind nav ≠ LiteralKind
  ∧ run conv (AsLiteral nav) = Returned None
  ∧ conversions conv (AsLiteral nav) = [].
Proof.
  intros conv nav.
  assert (H : Kind nav ≠ LiteralKind) by discriminate.
  split; [exact H|].
  exact (proj2 (AsLiteral_wrong_kind conv nav H)).
Defined.

(** ** Instances of the further properties *)

(** Witness of X4: [a && (b || c)] has five nodes. *)
Lemma MatchDescendants_length_witness :
  let root : navigableExprImpl (Constant:=nat) (Ty:=string) :=
    navigate sample_and_or in
  root = NavigateCheckedAST
           {| CheckedAST_Expr := Some sample_and_or; CheckedAST_TypeMap := ∅ |}
  ∧ osize (Constant:=nat) (Some sample_and_or) = 5
  ∧ length (MatchDescendants root AllMatcher) = 5.
Proof.
  intros root.
  assert (H : root = NavigateCheckedAST
    {| CheckedAST_Expr := Some sample_and_or; CheckedAST_TypeMap := ∅ |})
    by reflexivity.
  split; [exact H|]. split; [reflexivity|].
  exact (proj1 (proj2 (MatchDescendants_length root AllMatcher)) _ H).
Defined.

(** Witness of X5: the identifier [b] of [a && (b || c)], two levels down. *)
Lemma descendants_share_typeMap_witness :
  let tm : gmap Z string := {[ 4%Z := "bool"%string ]} in
  let root : navigableExprImpl (Constant:=nat) :=
    newNavigableExpr None (Some sample_and_or) tm in
  ∃ n, descend root [1; 0] = Some n
       ∧ ID n = 4%Z
       ∧ typeMap n = typeMap root
       ∧ Type_ "dyn"%string n = default "dyn"%string (typeMap root !! ID n).
Proof.
  intros tm root. eexists. 
  assert (H : descend root [1; 0]
              = Some (createChild (createChild root
                  (Some (mkCall 3 None "_||_" [mkIdent 4 "b"; mkIdent 5 "c"])))
                  (Some (mkIdent 4 "b")))) by reflexivity.
  split; [exact H|]. split; [reflexivity|].
  pose proof (descendants_share_typeMap "dyn"%string root [1; 0] _ H)
    as (H1 & H2 & _).
  split; [exact H1|exact H2].
Defined.

(** Witness of X6: from [b] of [a && (b || c)], two [Parent] steps up. *)
Lemma Parent_inverts_Children_witness :
  let root : navigableExprImpl (Constant:=nat) (Ty:=string) :=
    navigate sample_and_or in
  ∃ n, descend root [1; 0] = Some n ∧ ascend 2 n = Some root.
Proof.
  intros root. eexists.
  assert (H : descend root [1; 0]
              = Some (createChild (createChild root
                  (Some (mkCall 3 None "_||_" [mkIdent 4 "b"; mkIdent 5 "c"])))
                  (Some (mkIdent 4 "b")))) by reflexivity.
  split; [exact H|].
  exact (proj2 (proj2 (Parent_inverts_Children root)) [1; 0] _ H).
Defined.

(** Witness of X7: a list with a call among its elements. *)
Lemma ConstantValueMatcher_descendants_witness :
  let e : navigableExprImpl (Constant:=nat) (Ty:=string) :=
    navigate (sample_list_call 0) in
  constructed e
  ∧ MatchDescendants e (fun n => negb (isConstantKind (Kind n))) ≠ []
  ∧ ConstantValueMatcher e ≠ true.
Proof.
  intros e.
  assert (Hc : constructed e) by reflexivity.
  assert (Hne : MatchDescendants e (fun n => negb (isConstantKind (Kind n)))
                ≠ []) by (vm_compute; discriminate).
  split; [exact Hc|]. split; [exact Hne|].
  intros Htrue.
  exact (Hne (proj1 (proj2 (ConstantValueMatcher_descendants e Hc)) Htrue)).
Defined.

(** Witness of X8: a list of three literals. *)
Lemma List_view_Elements_witness :
  let nav : navigableExprImpl (Constant:=nat) (Ty:=string) :=
    navigate (sample_list3 0) in
  constructed nav ∧ Kind nav = ListKind
  ∧ length (navigableListImpl_Elements (AsList nav))
    = navigableListImpl_Size (AsList nav).
Proof.
  intros nav.
  assert (H1 : constructed nav) by reflexivity.
  assert (H2 : Kind nav = ListKind) by reflexivity.
  split; [exact H1|]. split; [exact H2|].
  exact (proj2 (proj2 (List_view_Elements nav H1 H2))).
Defined.

(** Witness of X9: the map [{k: v}]. *)
Lemma Map_view_Children_witness :
  let nav : navigableExprImpl (Constant:=nat) (Ty:=string) :=
    navigate sample_map in
  constructed nav ∧ Kind nav = MapKind
  ∧ length (Children nav) = 2 * navigableMapImpl_Size (AsMap nav).
Proof.
  intros nav.
  assert (H1 : constructed nav) by reflexivity.
  assert (H2 : Kind nav = MapKind) by reflexivity.
  split; [exact H1|]. split; [exact H2|].
  exact (proj2 (proj2 (Map_view_Children nav H1 H2))).
Defined.

(** Witness of X10: the struct [T{f: x}]. *)
Lemma Struct_view_TypeName_witness :
  let nav : navigableExprImpl (Constant:=nat) (Ty:=string) :=
    navigate sample_struct in
  constructed nav ∧ Kind nav = StructKind
  ∧ navigableStructImpl_TypeName (AsStruct nav) ≠ EmptyString
  ∧ Children nav
    = map navigableFieldImpl_Value (navigableStructImpl_Fields (AsStruct nav)).
Proof.
  intros nav.
  assert (H1 : constructed nav) by reflexivity.
  assert (H2 : Kind nav = StructKind) by reflexivity.
  split; [exact H1|]. split; [exact H2|].
  destruct (Struct_view_TypeName nav H1) as [Hiff Hch].
  split; [exact (proj2 Hiff H2)|exact (Hch H2)].
Defined.

(** Witness of X11: the select [o.field]. *)
Lemma Select_view_Operand_witness :
  let nav : navigableExprImpl (Constant:=nat) (Ty:=string) :=
    navigate sample_select in
  constructed nav ∧ Kind nav = SelectKind
  ∧ Children nav = [navigableSelectImpl_Operand (AsSelect nav)].
Proof.
  intros nav.
  assert (H1 : constructed nav) by reflexivity.
  assert (H2 : Kind nav = SelectKind) by reflexivity.
  split; [exact H1|]. split; [exact H2|].
  exact (Select_view_Operand nav H1 H2).
Defined.

(** Witness of X12: the fold of [items] into [sum]. *)
Lemma Comprehension_view_Children_witness :
  let nav : navigableExprImpl (Constant:=nat) (Ty:=string) :=
    navigate (sample_comprehension 0) in
  constructed nav ∧ Kind nav = ComprehensionKind
  ∧ Children nav
    = [navigableComprehensionImpl_IterRange (AsComprehension nav);
       navigableComprehensionImpl_AccuInit (AsComprehension nav);
       navigableComprehensionImpl_LoopCondition (AsComprehension nav);
       navigableComprehensionImpl_LoopStep (AsComprehension nav);
       navigableComprehensionImpl_Result (AsComprehension nav)].
Proof.
  intros nav.
  assert (H1 : constructed nav) by reflexivity.
  assert (H2 : Kind nav = ComprehensionKind) by reflexivity.
  split; [exact H1|]. split; [exact H2|].
  exact (Comprehension_view_Children nav H1 H2).
Defined.

(** Witness of X13: a literal whose payload converts. *)
Lemma AsLiteral_outcome_witness :
  let conv : option nat -> option nat * option string :=
    fun c => (c, None) in
  let nav : navigableExprImpl (Ty:=string) := navigate (mkConst 1 7) in
  Kind nav = LiteralKind
  ∧ conv (GetConstExpr (ToExpr nav)) = (Some 7, None)
  ∧ run conv (AsLiteral nav) = Returned (Some 7).
Proof.
  intros conv nav.
  assert (H1 : Kind nav = LiteralKind) by reflexivity.
  assert (H2 : conv (GetConstExpr (ToExpr nav)) = (Some 7, None))
    by reflexivity.
  split; [exact H1|]. split; [exact H2|].
  exact (proj1 (proj2 (AsLiteral_outcome conv nav)) (Some 7) H1 H2).
Defined.

(** Witness of X14: [greet(name)] and its argument. *)
Lemma FunctionMatcher_spec_witness :
  let e : navigableExprImpl (Constant:=nat) (Ty:=string) :=
    navigate sample_greet_call in
  let a := createChild e (Some (mkIdent 2 "name")) in
  constructed e ∧ FunctionMatcher "greet" e = true
  ∧ constructed a ∧ Kind a ≠ CallKind
  ∧ FunctionMatcher EmptyString a = false.
Proof.
  intros e a.
  assert (H1 : constructed e) by reflexivity.
  assert (H2 : constructed a) by reflexivity.
  assert (H3 : Kind a ≠ CallKind) by discriminate.
  split; [exact H1|]. split.
  - apply (proj1 (FunctionMatcher_spec "greet" e H1)).
    eexists. split; reflexivity.
  - split; [exact H2|]. split; [exact H3|].
    exact (proj1 (proj2 (FunctionMatcher_spec "greet" a H2) H3)).
Defined.

(** Witness of X15: the children of [greet(name)] in a store that holds
    the root alone. *)
Lemma Children_h_allocates_witness :
  let s : list (navigableExprObj (Constant:=nat) (Ty:=string)) :=
    [rootObj (Some sample_greet_call) ∅] in
  s !! 0 = Some (rootObj (Some sample_greet_call) ∅)
  ∧ s !! 1 = None
  ∧ Children_h 1 s = None
  ∧ ∃ cs s', Children_h 0 s = Some (cs, s')
             ∧ length s' = length s + length cs.
Proof.
  intros s.
  assert (H0 : s !! 0 = Some (rootObj (Some sample_greet_call) ∅))
    by reflexivity.
  assert (H1 : s !! 1 = None) by reflexivity.
  split; [exact H0|]. split; [exact H1|].
  destruct (Children_h_allocates s 1) as [Hnone _].
  destruct (Children_h_allocates s 0) as [_ Hsome].
  split; [exact (Hnone H1)|].
  destruct (Hsome _ H0) as (cs & s' & Hrun & _ & Hlen & _).
  exists cs, s'. split; [exact Hrun|exact Hlen].
Defined.

(** Witness of X16: what the search below [b || c] finds, the search below
    [a && (b || c)] finds. *)
Lemma MatchDescendants_by_children_witness :
  let root : navigableExprImpl (Constant:=nat) (Ty:=string) :=
    navigate sample_and_or in
  let c := createChild root
             (Some (mkCall 3 None "_||_" [mkIdent 4 "b"; mkIdent 5 "c"])) in
  let n := createChild c (Some (mkIdent 4 "b")) in
  In c (Children root)
  ∧ In n (MatchDescendants c (KindMatcher IdentKind))
  ∧ In n (MatchDescendants root (KindMatcher IdentKind)).
Proof.
  intros root c n.
  assert (H1 : In c (Children root)) by (right; left; reflexivity).
  assert (H2 : In n (MatchDescendants c (KindMatcher IdentKind)))
    by (left; reflexivity).
  split; [exact H1|]. split; [exact H2|].
  exact (proj2 (MatchDescendants_by_children root (KindMatcher IdentKind))
           c n H1 H2).
Defined.

